(** * nextpy_trivia: the question session and the end-of-game score

    A shallow embedding of [src/nextpy_trivia.py]: the text helpers the
    session relies on ([str.strip], [str.casefold], the [in] operator),
    [right_answer], the loop of [run_single_question], the loop of [main]
    and the arithmetic of [end_game].

    Modelling choices.
    - A Python [str] is a [string]; the characters are 8-bit and the text
      helpers act on the ASCII repertoire (case folding lower-cases [A-Z],
      white space is what [str.isspace] accepts below 128).  Text outside
      ASCII is not modelled: there [str.casefold] folds further letters,
      some of them to several characters, and [str.isspace] accepts
      further characters.  What is proved of the answer check for every
      text is therefore stated with the case folding left open
      ([right_answer_by]).
    - A Python [int] is a [Z]; the quotient computed by [/] is an exact
      rational ([Q]), the rounding of the floating-point quotient is left
      out.
    - [input()] reads from a finite list of typed lines.  When the list is
      used up the call is suspended in [input()]; the outcome then records
      the values of the locals [attempt] and [clue_used] at that prompt.
    - [raise SystemExit] is an outcome of its own.
    - [print] and [safe_sound] never influence control flow or a returned
      value ([safe_sound] swallows [PlaysoundException]); only what
      [end_game] displays is kept, as the value it computes. *)

From Equations Require Import Equations.
From Stdlib Require Import List Permutation ZArith QArith Bool Ascii String Lia Lqa.
Import ListNotations.

Open Scope string_scope.
Open Scope Z_scope.

(** ** Text helpers *)

Module Str.

(** [str.isspace] on one character of the ASCII range: TAB, LF, VT, FF, CR,
    the four separators FS, GS, RS, US, and the space. *)
Definition is_space (c : ascii) : bool :=
  let n := N_of_ascii c in
  ((9 <=? n) && (n <=? 13) || (28 <=? n) && (n <=? 32))%N.

(** One character of [str.casefold] on ASCII text: [A-Z] go to [a-z].
    Characters from 128 on are left as they are; the folding Python does
    of letters outside ASCII is not modelled. *)
Definition fold_char (c : ascii) : ascii :=
  let n := N_of_ascii c in
  if ((65 <=? n) && (n <=? 90))%N then ascii_of_N (n + 32) else c.

(** [s.casefold()] *)
Fixpoint casefold (s : string) : string :=
  match s with
  | EmptyString => EmptyString
  | String c s' => String (fold_char c) (casefold s')
  end.

(** [s.lstrip()] *)
Fixpoint lstrip (s : string) : string :=
  match s with
  | EmptyString => EmptyString
  | String c s' => if is_space c then lstrip s' else s
  end.

(** [s.rstrip()] *)
Fixpoint rstrip (s : string) : string :=
  match s with
  | EmptyString => EmptyString
  | String c s' =>
      match rstrip s' with
      | EmptyString => if is_space c then EmptyString else String c EmptyString
      | r => String c r
      end
  end.

(** [s.strip()] *)
Definition strip (s : string) : string := rstrip (lstrip s).

(** [s.startswith(p)] *)
Fixpoint startswith (p s : string) : bool :=
  match p, s with
  | EmptyString, _ => true
  | String _ _, EmptyString => false
  | String a p', String b s' => Ascii.eqb a b && startswith p' s'
  end.

(** [needle in hay] on two strings: [needle] starts at some position of
    [hay]. *)
Fixpoint contains (needle hay : string) : bool :=
  startswith needle hay ||
  match hay with
  | EmptyString => false
  | String _ hay' => contains needle hay'
  end.

(** [x in (a, b, ...)] on a tuple of strings. *)
Definition in_tuple (x : string) (t : list string) : bool :=
  existsb (String.eqb x) t.

(** Every character of [s] is white space (so for the empty string too). *)
Fixpoint all_space (s : string) : bool :=
  match s with
  | EmptyString => true
  | String c s' => is_space c && all_space s'
  end.

(** [t] occurs in [s] as a contiguous run of characters. *)
Definition substring_of (t s : string) : Prop :=
  exists pre post, s = pre ++ t ++ post.

End Str.

(** ** The question record and the answer check *)

(** One entry of the questions file: the keys [question], [answer], [hint]. *)
Record q_data : Type := mk_q_data {
  question : string;
  answer : list string;
  hint : string
}.

(** The number of attempts allowed for each question. *)
Definition ATTEMPTS : Z := 5.

(** [right_answer]: the first accepted answer whose case-folded form occurs
    in [given_answer] ends the loop with [True]. *)
Fixpoint right_answer (given_answer : string) (answers : list string) : bool :=
  match answers with
  | [] => false
  | a :: answers' =>
      if Str.contains (Str.casefold a) given_answer then true
      else right_answer given_answer answers'
  end.

(** [right_answer] with the case folding left open: [fold] stands for
    [str.casefold], whatever it does to a text. *)
Fixpoint right_answer_by (fold : string -> string) (given_answer : string)
    (answers : list string) : bool :=
  match answers with
  | [] => false
  | a :: answers' =>
      if Str.contains (fold a) given_answer then true
      else right_answer_by fold given_answer answers'
  end.

(** ** The question session *)

(** The exceptions the modelled code raises itself: the [raise SystemExit]
    of the session and the division by zero of [end_game].  What [input()]
    raises at the end of the input or on an interrupt is not modelled: the
    typed lines are the beginning of what is typed, and a session that has
    read them all is waiting. *)
Inductive exn : Type :=
| SystemExit
| ZeroDivisionError.

(** What a run over a finite list of typed lines comes to: a returned value
    together with the lines not read yet, a raised exception, or a call
    suspended in [input()] with the locals of the session at that prompt. *)
Inductive outcome (A : Type) : Type :=
| Return (value : A) (rest : list string)
| Raise (e : exn)
| AwaitingInput (attempt : Z) (clue_used : bool).

Arguments Return {A} value rest.
Arguments Raise {A} e.
Arguments AwaitingInput {A} attempt clue_used.

(** What the inner [while True] loop of [run_single_question] comes to. *)
Inductive prompted : Type :=
| Answered (ans : string) (rest : list string)
| Quit
| NoInput.

(** The inner loop: read a line, strip and case-fold it; an empty answer
    asks again, [quit] and [exit] raise [SystemExit], anything else breaks
    out of the loop. *)
Fixpoint ask (inputs : list string) : prompted :=
  match inputs with
  | [] => NoInput
  | line :: rest =>
      let ans := Str.casefold (Str.strip line) in
      if String.eqb ans "" then ask rest
      else if Str.in_tuple ans ["quit"; "exit"] then Quit
      else Answered ans rest
  end.

(* The bound stays folded while the termination measure is checked. *)
#[local] Opaque ATTEMPTS.

(** The outer loop [while attempt < ATTEMPTS] of [run_single_question],
    entered with the given values of [attempt] and [clue_used].  Each
    iteration that goes round again has added one to [attempt]. *)
Equations? run_loop (q : q_data) (q_num : Z) (attempt : Z) (clue_used : bool)
    (inputs : list string) : outcome Z
    by wf (Z.to_nat (ATTEMPTS - attempt)) lt :=
  run_loop q q_num attempt clue_used inputs with Z_lt_dec attempt ATTEMPTS := {
    | right _ => Return 0 inputs
    | left more with ask inputs := {
        | NoInput => AwaitingInput attempt clue_used
        | Quit => Raise SystemExit
        | Answered ans rest =>
            if Str.in_tuple ans ["help"; "clue"; "hint"]
            then run_loop q q_num (attempt + 1) true rest
            else if right_answer ans (answer q)
            then Return (attempt + 1) rest
            else run_loop q q_num (attempt + 1) clue_used rest } }.
Proof. all: lia. Qed.

#[local] Transparent ATTEMPTS.

(** [run_single_question]: the loop entered with [attempt = 0] and
    [clue_used = False]. *)
Definition run_single_question (q : q_data) (q_num : Z) (inputs : list string)
  : outcome Z :=
  run_loop q q_num 0 false inputs.

(** ** The end of the game *)

Inductive color : Type := red | white | green.

Definition color_eqb (a b : color) : bool :=
  match a, b with
  | red, red | white, white | green, green => true
  | _, _ => false
  end.

(** What [end_game] displays: the two counts of the "You answered" line,
    the score with its colour, and the sound played last. *)
Record score_result : Type := mk_score_result {
  answered : Z;
  total : Z;
  score : Q;
  score_color : color;
  sound : string
}.

(** [results.count(0)] *)
Definition count0 (results : list Z) : Z :=
  Z.of_nat (count_occ Z.eq_dec results 0).

(** [sum(results)] *)
Definition sum (results : list Z) : Z := fold_left Z.add results 0.

(** [len(results)] *)
Definition len (results : list Z) : Z := Z.of_nat (List.length results).

(** [x < y] on rationals, as a boolean. *)
Definition Qlt_bool (x y : Q) : bool := negb (Qle_bool y x).

(** [end_game]; [None] stands for the [ZeroDivisionError] of the division
    by [len(results)] on an empty list. *)
Definition end_game (results : list Z) : option score_result :=
  let unanswered_questions := count0 results in
  let overall_attempts := sum results in
  if len results =? 0 then None
  else
    let avg_attempts_per_q :=
      (inject_Z (overall_attempts + unanswered_questions * 10)
       / inject_Z (len results))%Q in
    let score :=
      (if negb (unanswered_questions =? 0)
       then 10 - avg_attempts_per_q else 11 - avg_attempts_per_q)%Q in
    let score_color := if Qlt_bool score 6 then red else white in
    let score_color := if Qle_bool 9 score then green else score_color in
    Some {| answered := len results - unanswered_questions;
            total := len results;
            score := score;
            score_color := score_color;
            sound := if color_eqb score_color red
                     then "notification.mp3" else "happy-end.mp3" |}.

(** ** The main loop *)

(** The [for] loop of [main] over the questions left, [i] being the index
    of the first of them and [results] the list built so far. *)
Fixpoint ask_questions (questions_data : list q_data) (i : Z)
    (results : list Z) (inputs : list string) : outcome (list Z) :=
  match questions_data with
  | [] => Return results inputs
  | q :: questions_data' =>
      match run_single_question q (i + 1) inputs with
      | Return result rest =>
          ask_questions questions_data' (i + 1) (results ++ [result])%list rest
      | Raise e => Raise e
      | AwaitingInput attempt clue_used => AwaitingInput attempt clue_used
      end
  end.

(** [main], from the shuffled list of questions on. *)
Definition main (questions_data : list q_data) (inputs : list string)
  : outcome score_result :=
  match ask_questions questions_data 0 [] inputs with
  | Return results rest =>
      match end_game results with
      | Some r => Return r rest
      | None => Raise ZeroDivisionError
      end
  | Raise e => Raise e
  | AwaitingInput attempt clue_used => AwaitingInput attempt clue_used
  end.

(** ** Sample data *)

Definition capital : q_data :=
  {| question := "What is the capital of France?";
     answer := ["Paris"];
     hint := "City of light" |}.

(** A question whose list of answers holds an empty string. *)
Definition lenient : q_data :=
  {| question := "Which city is called the eternal city?";
     answer := [""; "Rome"];
     hint := "All roads lead there" |}.

(** A question whose accepted answer occurs inside a hint keyword. *)
Definition vowel : q_data :=
  {| question := "Which letter is the most frequent in English?";
     answer := ["E"];
     hint := "A vowel" |}.

(** ** Vocabulary for the statements *)

(** What the session compares: the typed line, stripped and case-folded. *)
Definition normalized (line : string) : string :=
  Str.casefold (Str.strip line).

(** The branch of the loop body a typed line selects for a question. *)
Inductive kind : Type := Blank | Exit | Hint | Right | Wrong.

Definition classify (q : q_data) (line : string) : kind :=
  let ans := normalized line in
  if String.eqb ans "" then Blank
  else if Str.in_tuple ans ["quit"; "exit"] then Exit
  else if Str.in_tuple ans ["help"; "clue"; "hint"] then Hint
  else if right_answer ans (answer q) then Right
  else Wrong.

Definition kind_eqb (a b : kind) : bool :=
  match a, b with
  | Blank, Blank | Exit, Exit | Hint, Hint | Right, Right | Wrong, Wrong => true
  | _, _ => false
  end.

(** How many of the typed lines select the branch [k]. *)
Definition count_kind (k : kind) (q : q_data) (lines : list string) : Z :=
  Z.of_nat (List.length (filter (fun l => kind_eqb (classify q l) k) lines)).

(** The quotient displayed as the average, written from the outcomes:
    their sum plus ten for each zero among them, over their number. *)
Definition average_attempts (outcomes : list Z) : Q :=
  let penalised :=
    fold_right Z.add 0 outcomes
    + 10 * Z.of_nat (List.length (filter (Z.eqb 0) outcomes)) in
  (inject_Z penalised / inject_Z (Z.of_nat (List.length outcomes)))%Q.

(** An outcome [run_single_question] can return. *)
Definition session_outcome (v : Z) : Prop := v = 0 \/ 1 <= v <= ATTEMPTS.

(** ** Styled text *)

(** The constants of [colorama] that the table [STYLE] is built from. *)
Record colorama : Type := mk_colorama {
  Fore_LIGHTYELLOW_EX : string;
  Fore_LIGHTCYAN_EX : string;
  Fore_LIGHTGREEN_EX : string;
  Fore_RED : string;
  Fore_WHITE : string;
  Style_RESET_ALL : string
}.

(** The escape character, written [\033] in the source. *)
Definition ESC : ascii := ascii_of_nat 27.

(** The dictionary [STYLE], in the order it is written. *)
Definition STYLE (c : colorama) : list (string * string) :=
  [ ("yellow", Fore_LIGHTYELLOW_EX c);
    ("cyan", Fore_LIGHTCYAN_EX c);
    ("green", Fore_LIGHTGREEN_EX c);
    ("red", Fore_RED c);
    ("white", Fore_WHITE c);
    ("clear", Style_RESET_ALL c);
    ("bold", String ESC "[1m") ].

(** [d[key]] on a dictionary with string keys; [None] stands for the
    [KeyError] of a key that is absent. *)
Fixpoint getitem (d : list (string * string)) (key : string) : option string :=
  match d with
  | [] => None
  | (k, v) :: d' => if String.eqb key k then Some v else getitem d' key
  end.

(** [style_text]; [None] stands for a [KeyError]. *)
Definition style_text (c : colorama) (text color : string) (bold : bool)
  : option string :=
  match (if bold then getitem (STYLE c) "bold" else Some "") with
  | None => None
  | Some style =>
      match getitem (STYLE c) color with
      | None => None
      | Some code =>
          let style := style ++ code in
          match getitem (STYLE c) "clear" with
          | None => None
          | Some clear => Some ((style ++ text) ++ clear)
          end
      end
  end.

(** The key of [STYLE] that [end_game] names for a colour. *)
Definition color_name (col : color) : string :=
  match col with
  | red => "red"
  | white => "white"
  | green => "green"
  end.

(** ** The session with what it displays and plays *)

(** The lines the session prints, each with the values put into it. *)
Inductive message : Type :=
| QuestionLine (q_num : Z) (text : string)
| HelpTip
| NothingTyped
| Quitting
| AlreadyAsked
| HintLine (text : string)
| YouAreRight (attempt : Z)
| WrongAnswer
| AttemptOutOf (attempt : Z)
| BareNewline
| FailedAll.

(** What the session does towards the terminal and the loudspeaker: a
    [print], an [input] whose prompt shows a number out of [ATTEMPTS], or a
    call of [safe_sound]. *)
Inductive event : Type :=
| Display (m : message)
| Ask (shown : Z)
| Play (file : string) (blocking : bool).

(** The inner loop with its events.  The prompt is displayed by every
    [input], the one that finds no line included. *)
Fixpoint ask_io (attempt : Z) (inputs : list string) : list event * prompted :=
  match inputs with
  | [] => ([Ask (attempt + 1)], NoInput)
  | line :: rest =>
      let ans := Str.casefold (Str.strip line) in
      if String.eqb ans "" then
        let (events, r) := ask_io attempt rest in
        (Ask (attempt + 1) :: Display NothingTyped :: events, r)
      else if Str.in_tuple ans ["quit"; "exit"] then
        ([Ask (attempt + 1); Display Quitting], Quit)
      else ([Ask (attempt + 1)], Answered ans rest)
  end.

(** The events of a run put before those of its continuation. *)
Definition emit {A : Type} (events : list event) (r : list event * outcome A)
  : list event * outcome A :=
  ((events ++ fst r)%list, snd r).

(** What an iteration of the outer loop prints before it asks. *)
Definition heading (q : q_data) (q_num : Z) (clue_used : bool) : list event :=
  Display (QuestionLine q_num (question q))
  :: (if clue_used then [] else [Display HelpTip]).

(* The bound stays folded while the termination measure is checked. *)
#[local] Opaque ATTEMPTS.

(** The outer loop of [run_single_question] with its events. *)
Equations? run_loop_io (q : q_data) (q_num : Z) (attempt : Z) (clue_used : bool)
    (inputs : list string) : list event * outcome Z
    by wf (Z.to_nat (ATTEMPTS - attempt)) lt :=
  run_loop_io q q_num attempt clue_used inputs with Z_lt_dec attempt ATTEMPTS := {
    | right _ =>
        ([Display FailedAll; Play "power-down.mp3" true], Return 0 inputs)
    | left more with ask_io attempt inputs := {
        | (events, NoInput) =>
            ((heading q q_num clue_used ++ events)%list,
             AwaitingInput attempt clue_used)
        | (events, Quit) =>
            ((heading q q_num clue_used ++ events)%list, Raise SystemExit)
        | (events, Answered ans rest) =>
            if Str.in_tuple ans ["help"; "clue"; "hint"]
            then emit (heading q q_num clue_used ++ events
                       ++ (if clue_used then [Display AlreadyAsked] else [])
                       ++ [Display (HintLine (hint q)); Play "beep.mp3" false])%list
                      (run_loop_io q q_num (attempt + 1) true rest)
            else if right_answer ans (answer q)
            then ((heading q q_num clue_used ++ events
                   ++ [Display (YouAreRight (attempt + 1));
                       Play "short-success.mp3" true])%list,
                  Return (attempt + 1) rest)
            else emit (heading q q_num clue_used ++ events
                       ++ Display WrongAnswer
                       :: (if attempt + 1 <? ATTEMPTS
                           then [Display (AttemptOutOf (attempt + 1));
                                 Play "fail.mp3" false]
                           else [Display BareNewline]))%list
                      (run_loop_io q q_num (attempt + 1) clue_used rest) } }.
Proof. all: lia. Qed.

#[local] Transparent ATTEMPTS.

(** [run_single_question] with its events. *)
Definition run_single_question_io (q : q_data) (q_num : Z)
    (inputs : list string) : list event * outcome Z :=
  run_loop_io q q_num 0 false inputs.

(** ** More vocabulary for the statements *)

(** What an outcome weighs in the average: ten for a zero. *)
Definition weight (v : Z) : Z := if v =? 0 then 10 else v.

(** The events a session ends with, by what it came to: the success line
    and sound, the failure line and sound, the quitting line, or the
    prompt it is waiting at. *)
Definition closing (o : outcome Z) : list event :=
  match o with
  | Return v _ =>
      if v =? 0 then [Display FailedAll; Play "power-down.mp3" true]
      else [Display (YouAreRight v); Play "short-success.mp3" true]
  | Raise _ => [Display Quitting]
  | AwaitingInput attempt _ => [Ask (attempt + 1)]
  end.

Definition is_hint_line (e : event) : bool :=
  match e with
  | Display (HintLine _) => true
  | _ => false
  end.

Definition is_already_asked (e : event) : bool :=
  match e with
  | Display AlreadyAsked => true
  | _ => false
  end.

Definition is_beep (e : event) : bool :=
  match e with
  | Play file blocking => String.eqb file "beep.mp3" && negb blocking
  | _ => false
  end.

(** How many of the events satisfy [p]. *)
Definition count_events (p : event -> bool) (events : list event) : nat :=
  List.length (filter p events).

(** A typed line that normalizes to an exit keyword. *)
Definition exit_line (line : string) : Prop :=
  Str.in_tuple (normalized line) ["quit"; "exit"] = true.

(** * Properties *)

(** ** The text helpers *)

Module StrFacts.
Import Str.

Lemma startswith_iff (p s : string) :
  startswith p s = true <-> exists t, s = p ++ t.
Proof.
  revert s; induction p as [|a p IH]; intros s; simpl.
  - split; [intros _; now exists s | reflexivity].
  - destruct s as [|b s].
    + split; [discriminate | intros [t Ht]; discriminate].
    + rewrite andb_true_iff, IH, Ascii.eqb_eq. split.
      * intros [-> [t ->]]. now exists t.
      * intros [t Ht]. injection Ht as -> ->. split; [reflexivity | now exists t].
Qed.

Lemma contains_iff (needle hay : string) :
  contains needle hay = true <-> substring_of needle hay.
Proof.
  unfold substring_of. induction hay as [|c hay IH].
  - simpl. rewrite orb_false_r, startswith_iff. split.
    + intros [t Ht]. now exists "", t.
    + intros [pre [post H]]. destruct pre; [now exists post | discriminate].
  - cbn [contains]. rewrite orb_true_iff, IH, startswith_iff. split.
    + intros [[t Ht] | [pre [post H]]].
      * now exists "", t.
      * exists (String c pre), post. simpl. now rewrite H.
    + intros [pre [post H]]. destruct pre as [|d pre].
      * left. now exists post.
      * right. injection H as _ H. now exists pre, post.
Qed.

Lemma contains_empty (hay : string) : contains "" hay = true.
Proof. destruct hay; reflexivity. Qed.

Lemma casefold_empty_iff (s : string) : casefold s = "" <-> s = "".
Proof. destruct s; simpl; split; congruence. Qed.

Lemma right_answer_iff (given_answer : string) (answers : list string) :
  right_answer given_answer answers = true <->
  exists a, In a answers /\ substring_of (casefold a) given_answer.
Proof.
  induction answers as [|a answers IH]; simpl.
  - split; [discriminate | intros [a [[] _]]].
  - destruct (contains (casefold a) given_answer) eqn:E.
    + split; [intros _ | reflexivity].
      exists a. split; [now left | now apply contains_iff].
    + rewrite IH. split.
      * intros [b [Hb H]]. exists b. split; [now right | exact H].
      * intros [b [[<- | Hb] H]].
        -- apply contains_iff in H. congruence.
        -- now exists b.
Qed.

Lemma right_answer_by_iff (fold : string -> string) (given_answer : string)
    (answers : list string) :
  right_answer_by fold given_answer answers = true <->
  exists a, In a answers /\ substring_of (fold a) given_answer.
Proof.
  induction answers as [|a answers IH]; simpl.
  - split; [discriminate | intros [a [[] _]]].
  - destruct (contains (fold a) given_answer) eqn:E.
    + split; [intros _ | reflexivity].
      exists a. split; [now left | now apply contains_iff].
    + rewrite IH. split.
      * intros [b [Hb H]]. exists b. split; [now right | exact H].
      * intros [b [[<- | Hb] H]].
        -- apply contains_iff in H. congruence.
        -- now exists b.
Qed.

Lemma right_answer_by_casefold (given_answer : string) (answers : list string) :
  right_answer given_answer answers =
  right_answer_by casefold given_answer answers.
Proof.
  induction answers as [|a answers IH]; [reflexivity |].
  simpl. now rewrite IH.
Qed.

Lemma in_tuple_iff (x : string) (t : list string) :
  in_tuple x t = true <-> In x t.
Proof.
  unfold in_tuple. rewrite existsb_exists. split.
  - intros [y [Hy E]]. apply String.eqb_eq in E. now subst.
  - intros H. exists x. split; [exact H | apply String.eqb_refl].
Qed.

End StrFacts.

(** ** The session loop *)

Module SessionFacts.
Import Str StrFacts.

Lemma strip_lstrip_shape (s : string) :
  lstrip s = "" \/ exists c t, lstrip s = String c t /\ is_space c = false.
Proof.
  induction s as [|c s IH]; simpl.
  - now left.
  - destruct (is_space c) eqn:E; [exact IH |].
    right. now exists c, s.
Qed.

Lemma lstrip_empty_iff (s : string) : lstrip s = "" <-> all_space s = true.
Proof.
  induction s as [|c s IH]; simpl.
  - tauto.
  - destruct (is_space c); simpl; [exact IH | split; discriminate].
Qed.

(** [strip] leaves nothing exactly of the strings made of white space. *)
Lemma strip_empty_iff (s : string) : strip s = "" <-> all_space s = true.
Proof.
  rewrite <- lstrip_empty_iff. unfold strip.
  destruct (strip_lstrip_shape s) as [-> | [c [t [-> Hc]]]].
  - simpl. tauto.
  - simpl. rewrite Hc. destruct (rstrip t); split; discriminate.
Qed.

Lemma normalized_empty_iff (line : string) :
  normalized line = "" <-> all_space line = true.
Proof. unfold normalized. now rewrite casefold_empty_iff, strip_empty_iff. Qed.

(** The body of the outer loop, as one equation. *)
Lemma run_loop_body (q : q_data) (q_num attempt : Z) (clue_used : bool)
    (inputs : list string) :
  run_loop q q_num attempt clue_used inputs =
  if attempt <? ATTEMPTS then
    match ask inputs with
    | NoInput => AwaitingInput attempt clue_used
    | Quit => Raise SystemExit
    | Answered ans rest =>
        if in_tuple ans ["help"; "clue"; "hint"]
        then run_loop q q_num (attempt + 1) true rest
        else if right_answer ans (answer q) then Return (attempt + 1) rest
        else run_loop q q_num (attempt + 1) clue_used rest
    end
  else Return 0 inputs.
Proof.
  simp run_loop.
  destruct (Z_lt_dec attempt ATTEMPTS) as [H | H];
    destruct (Z.ltb_spec attempt ATTEMPTS); try lia.
  - cbn. destruct (ask inputs); reflexivity.
  - reflexivity.
Qed.

(** Reading one line at the prompt. *)
Lemma ask_cons (line : string) (rest : list string) :
  ask (line :: rest) =
  if String.eqb (normalized line) "" then ask rest
  else if in_tuple (normalized line) ["quit"; "exit"] then Quit
  else Answered (normalized line) rest.
Proof. reflexivity. Qed.

Lemma ask_blank (line : string) (rest : list string) :
  all_space line = true -> ask (line :: rest) = ask rest.
Proof.
  intros H. apply normalized_empty_iff in H.
  rewrite ask_cons. now rewrite H.
Qed.

Lemma ask_quit (line : string) (rest : list string) :
  in_tuple (normalized line) ["quit"; "exit"] = true ->
  ask (line :: rest) = Quit.
Proof.
  intros H. rewrite ask_cons, H.
  destruct (String.eqb _ "") eqn:E; [| reflexivity].
  apply String.eqb_eq in E. rewrite E in H. discriminate.
Qed.

Lemma ask_answer (line : string) (rest : list string) :
  normalized line <> "" ->
  in_tuple (normalized line) ["quit"; "exit"] = false ->
  ask (line :: rest) = Answered (normalized line) rest.
Proof.
  intros Hne Hq. rewrite ask_cons, Hq.
  destruct (String.eqb _ "") eqn:E; [| reflexivity].
  apply String.eqb_eq in E. contradiction.
Qed.

(** What the inner loop has read when it comes to an answer. *)
Lemma ask_answered_inv (inputs : list string) (ans : string) (rest : list string) :
  ask inputs = Answered ans rest ->
  exists blanks line,
    inputs = (blanks ++ line :: rest)%list /\
    Forall (fun l => all_space l = true) blanks /\
    normalized line = ans /\ ans <> "" /\
    in_tuple ans ["quit"; "exit"] = false.
Proof.
  induction inputs as [|l inputs IH]; [discriminate |].
  rewrite ask_cons.
  destruct (String.eqb _ "") eqn:E.
  - intros H. destruct (IH H) as [blanks [line [-> [Hb Hl]]]].
    exists (l :: blanks), line. split; [reflexivity |].
    split; [| exact Hl]. constructor; [| exact Hb].
    apply normalized_empty_iff. now apply String.eqb_eq.
  - destruct (in_tuple (normalized l) ["quit"; "exit"]) eqn:Q; intros H;
      [discriminate H |].
    injection H as <- <-.
    exists [], l. repeat split; auto.
    intros H. apply String.eqb_neq in E. contradiction.
Qed.

Lemma ask_app (pre post : list string) :
  ask (pre ++ post) =
  match ask pre with
  | Answered ans rest => Answered ans (rest ++ post)
  | Quit => Quit
  | NoInput => ask post
  end.
Proof.
  induction pre as [|l pre IH]; [reflexivity |].
  rewrite <- app_comm_cons, !ask_cons.
  destruct (String.eqb _ ""); [exact IH |].
  destruct (in_tuple _ ["quit"; "exit"]); reflexivity.
Qed.

(** Induction along the iterations of the outer loop: one case for each
    way an iteration ends. *)
Section LoopInduction.

Variables (q : q_data) (q_num : Z).
Variable P : Z -> bool -> list string -> outcome Z -> Prop.

Hypothesis exhausted : forall attempt clue_used inputs,
  ATTEMPTS <= attempt -> P attempt clue_used inputs (Return 0 inputs).
Hypothesis suspended : forall attempt clue_used inputs,
  attempt < ATTEMPTS -> ask inputs = NoInput ->
  P attempt clue_used inputs (AwaitingInput attempt clue_used).
Hypothesis quitting : forall attempt clue_used inputs,
  attempt < ATTEMPTS -> ask inputs = Quit ->
  P attempt clue_used inputs (Raise SystemExit).
Hypothesis hinted : forall attempt clue_used inputs ans rest o,
  attempt < ATTEMPTS -> ask inputs = Answered ans rest ->
  in_tuple ans ["help"; "clue"; "hint"] = true ->
  o = run_loop q q_num (attempt + 1) true rest ->
  P (attempt + 1) true rest o ->
  P attempt clue_used inputs o.
Hypothesis succeeded : forall attempt clue_used inputs ans rest,
  attempt < ATTEMPTS -> ask inputs = Answered ans rest ->
  in_tuple ans ["help"; "clue"; "hint"] = false ->
  right_answer ans (answer q) = true ->
  P attempt clue_used inputs (Return (attempt + 1) rest).
Hypothesis failed : forall attempt clue_used inputs ans rest o,
  attempt < ATTEMPTS -> ask inputs = Answered ans rest ->
  in_tuple ans ["help"; "clue"; "hint"] = false ->
  right_answer ans (answer q) = false ->
  o = run_loop q q_num (attempt + 1) clue_used rest ->
  P (attempt + 1) clue_used rest o ->
  P attempt clue_used inputs o.

Lemma loop_induction (attempt : Z) (clue_used : bool) (inputs : list string) :
  P attempt clue_used inputs (run_loop q q_num attempt clue_used inputs).
Proof.
  remember (Z.to_nat (ATTEMPTS - attempt)) as k eqn:Hk.
  revert attempt clue_used inputs Hk.
  induction k as [k IH] using lt_wf_ind. intros attempt clue_used inputs Hk.
  rewrite run_loop_body.
  destruct (Z.ltb_spec attempt ATTEMPTS) as [Hlt | Hge];
    [| now apply exhausted].
  destruct (ask inputs) as [ans rest | |] eqn:Hask;
    [| now apply quitting | now apply suspended].
  destruct (in_tuple ans ["help"; "clue"; "hint"]) eqn:Hhint.
  - eapply hinted; eauto.
    apply (IH (Z.to_nat (ATTEMPTS - (attempt + 1)))); [lia | reflexivity].
  - destruct (right_answer ans (answer q)) eqn:Hright.
    + eapply succeeded; eauto.
    + eapply failed; eauto.
      apply (IH (Z.to_nat (ATTEMPTS - (attempt + 1)))); [lia | reflexivity].
Qed.

End LoopInduction.

(** More typed lines after a run that came to a value or an exception
    change nothing but the lines left over; after a suspended run they
    resume the loop in the state it was suspended in. *)
Lemma run_loop_app (q : q_data) (q_num attempt : Z) (clue_used : bool)
    (pre post : list string) :
  run_loop q q_num attempt clue_used (pre ++ post) =
  match run_loop q q_num attempt clue_used pre with
  | Return v rest => Return v (rest ++ post)
  | Raise e => Raise e
  | AwaitingInput attempt' clue_used' =>
      run_loop q q_num attempt' clue_used' post
  end.
Proof.
  revert attempt clue_used pre.
  apply (loop_induction q q_num
    (fun attempt clue_used pre o =>
       run_loop q q_num attempt clue_used (pre ++ post) =
       match o with
       | Return v rest => Return v (rest ++ post)
       | Raise e => Raise e
       | AwaitingInput attempt' clue_used' =>
           run_loop q q_num attempt' clue_used' post
       end)).
  - intros a c pre Hge. rewrite run_loop_body.
    destruct (Z.ltb_spec a ATTEMPTS); [lia | reflexivity].
  - intros a c pre Hlt Hask.
    rewrite (run_loop_body q q_num a c (pre ++ post)), ask_app, Hask.
    rewrite (run_loop_body q q_num a c post).
    destruct (Z.ltb_spec a ATTEMPTS); [reflexivity | lia].
  - intros a c pre Hlt Hask. rewrite run_loop_body, ask_app, Hask.
    destruct (Z.ltb_spec a ATTEMPTS); [reflexivity | lia].
  - intros a c pre ans rest o Hlt Hask Hh -> IH.
    rewrite run_loop_body, ask_app, Hask, Hh.
    destruct (Z.ltb_spec a ATTEMPTS); [exact IH | lia].
  - intros a c pre ans rest Hlt Hask Hh Hr.
    rewrite run_loop_body, ask_app, Hask, Hh, Hr.
    destruct (Z.ltb_spec a ATTEMPTS); [reflexivity | lia].
  - intros a c pre ans rest o Hlt Hask Hh Hr -> IH.
    rewrite run_loop_body, ask_app, Hask, Hh, Hr.
    destruct (Z.ltb_spec a ATTEMPTS); [exact IH | lia].
Qed.

(** A suspended run is inside the loop: attempts are left. *)
Lemma run_loop_awaiting (q : q_data) (q_num attempt : Z) (clue_used : bool)
    (inputs : list string) (attempt' : Z) (clue_used' : bool) :
  run_loop q q_num attempt clue_used inputs = AwaitingInput attempt' clue_used' ->
  attempt <= attempt' < ATTEMPTS.
Proof.
  revert attempt clue_used inputs.
  apply (loop_induction q q_num
    (fun attempt clue_used inputs o =>
       o = AwaitingInput attempt' clue_used' -> attempt <= attempt' < ATTEMPTS)).
  - discriminate.
  - intros a c _ Hlt _ H. injection H as <- _. lia.
  - discriminate.
  - intros a c _ ans rest o Hlt _ _ _ IH H. specialize (IH H). lia.
  - discriminate.
  - intros a c _ ans rest o Hlt _ _ _ _ IH H. specialize (IH H). lia.
Qed.

(** The value returned, against the counter the loop was entered with. *)
Lemma run_loop_return_range (q : q_data) (q_num attempt : Z) (clue_used : bool)
    (inputs : list string) (v : Z) (rest : list string) :
  run_loop q q_num attempt clue_used inputs = Return v rest ->
  v = 0 \/ attempt + 1 <= v <= ATTEMPTS.
Proof.
  revert attempt clue_used inputs.
  apply (loop_induction q q_num
    (fun attempt clue_used inputs o =>
       o = Return v rest -> v = 0 \/ attempt + 1 <= v <= ATTEMPTS)).
  - intros a c i _ H. injection H as <- _. now left.
  - discriminate.
  - discriminate.
  - intros a c _ ans r o Hlt _ _ _ IH H. specialize (IH H). lia.
  - intros a c _ ans r Hlt _ _ _ H. injection H as <- _. lia.
  - intros a c _ ans r o Hlt _ _ _ _ IH H. specialize (IH H). lia.
Qed.

(** *** Counting the typed lines by the branch they select *)

Lemma count_kind_nil (k : kind) (q : q_data) : count_kind k q [] = 0.
Proof. reflexivity. Qed.

Lemma count_kind_cons (k : kind) (q : q_data) (l : string) (ls : list string) :
  count_kind k q (l :: ls) =
  (if kind_eqb (classify q l) k then 1 else 0) + count_kind k q ls.
Proof.
  unfold count_kind. simpl.
  destruct (kind_eqb (classify q l) k); simpl List.length; lia.
Qed.

Lemma count_kind_app (k : kind) (q : q_data) (l1 l2 : list string) :
  count_kind k q (l1 ++ l2) = count_kind k q l1 + count_kind k q l2.
Proof.
  unfold count_kind. rewrite filter_app, length_app. lia.
Qed.

Lemma classify_blank (q : q_data) (l : string) :
  all_space l = true -> classify q l = Blank.
Proof.
  intros H. apply normalized_empty_iff in H. unfold classify. now rewrite H.
Qed.

Lemma count_kind_blanks (k : kind) (q : q_data) (blanks : list string) :
  Forall (fun l => all_space l = true) blanks ->
  k <> Blank -> count_kind k q blanks = 0.
Proof.
  intros H Hk. induction H as [|l ls Hl _ IH]; [reflexivity |].
  rewrite count_kind_cons, IH, (classify_blank q l Hl).
  destruct k; try reflexivity. contradiction.
Qed.

(** The branch selected by the line that ended the inner loop. *)
Lemma classify_answered (q : q_data) (line : string) :
  normalized line <> "" ->
  in_tuple (normalized line) ["quit"; "exit"] = false ->
  classify q line =
  if in_tuple (normalized line) ["help"; "clue"; "hint"] then Hint
  else if right_answer (normalized line) (answer q) then Right else Wrong.
Proof.
  intros Hne Hq. unfold classify. rewrite Hq.
  destruct (String.eqb _ "") eqn:E; [| reflexivity].
  apply String.eqb_eq in E. contradiction.
Qed.

(** The lines read by one iteration that came to an answer: blank lines,
    then the line answered with. *)
Lemma ask_answered_counts (q : q_data) (inputs : list string) (ans : string)
    (rest : list string) :
  ask inputs = Answered ans rest ->
  exists read line,
    inputs = (read ++ rest)%list /\ normalized line = ans /\
    classify q line <> Blank /\ classify q line <> Exit /\
    classify q line =
      (if in_tuple ans ["help"; "clue"; "hint"] then Hint
       else if right_answer ans (answer q) then Right else Wrong) /\
    forall k, k <> Blank ->
      count_kind k q read = if kind_eqb (classify q line) k then 1 else 0.
Proof.
  intros H.
  destruct (ask_answered_inv _ _ _ H) as [blanks [line [-> [Hb [<- [Hne Hq]]]]]].
  pose proof (classify_answered q line Hne Hq) as Hc.
  exists (blanks ++ [line])%list, line.
  split; [now rewrite <- app_assoc |]. split; [reflexivity |].
  assert (Hk : classify q line <> Blank /\ classify q line <> Exit).
  { rewrite Hc.
    destruct (in_tuple _ ["help"; "clue"; "hint"]);
      [| destruct (right_answer _ _)]; split; discriminate. }
  destruct Hk as [Hk1 Hk2]. repeat split; auto.
  intros k Hk. rewrite count_kind_app, (count_kind_blanks k q blanks Hb Hk).
  rewrite count_kind_cons, count_kind_nil. lia.
Qed.

(** What a returned value says about the lines read: a positive value is
    one more than the hints and wrong answers before the one right answer;
    zero comes after hints and wrong answers used up the attempts. *)
Lemma run_loop_return_counts (q : q_data) (q_num attempt : Z) (clue_used : bool)
    (inputs : list string) (v : Z) (rest : list string) :
  attempt <= ATTEMPTS ->
  run_loop q q_num attempt clue_used inputs = Return v rest ->
  exists used,
    inputs = (used ++ rest)%list /\
    count_kind Exit q used = 0 /\
    ((v = attempt + count_kind Hint q used + count_kind Wrong q used + 1 /\
      count_kind Right q used = 1) \/
     (v = 0 /\ count_kind Right q used = 0 /\
      attempt + count_kind Hint q used + count_kind Wrong q used = ATTEMPTS)).
Proof.
  revert attempt clue_used inputs.
  apply (loop_induction q q_num
    (fun attempt clue_used inputs o =>
       attempt <= ATTEMPTS -> o = Return v rest ->
       exists used,
         inputs = (used ++ rest)%list /\
         count_kind Exit q used = 0 /\
         ((v = attempt + count_kind Hint q used + count_kind Wrong q used + 1 /\
           count_kind Right q used = 1) \/
          (v = 0 /\ count_kind Right q used = 0 /\
           attempt + count_kind Hint q used + count_kind Wrong q used
           = ATTEMPTS)))).
  - intros a c i Hge Hle H. injection H as <- <-.
    exists []. rewrite !count_kind_nil. repeat split; auto. right. lia.
  - discriminate.
  - discriminate.
  - intros a c i ans r o Hlt Hask Hh _ IH _ H.
    destruct (IH ltac:(lia) H) as [used [-> [Hx Hcases]]].
    destruct (ask_answered_counts q _ _ _ Hask)
      as [read [line [-> [_ [_ [_ [Hc Hcount]]]]]]].
    rewrite Hh in Hc.
    exists (read ++ used)%list. split; [now rewrite app_assoc |].
    rewrite !count_kind_app, !Hcount, Hc by discriminate. cbn [kind_eqb].
    split; [lia |]. destruct Hcases as [[-> ->] | [-> [-> <-]]]; [left | right]; lia.
  - intros a c i ans r Hlt Hask Hh Hr _ H. injection H as <- <-.
    destruct (ask_answered_counts q _ _ _ Hask)
      as [read [line [-> [_ [_ [_ [Hc Hcount]]]]]]].
    rewrite Hh, Hr in Hc.
    exists read. split; [reflexivity |].
    rewrite !Hcount, Hc by discriminate. cbn [kind_eqb]. split; [reflexivity |]. left. lia.
  - intros a c i ans r o Hlt Hask Hh Hr _ IH _ H.
    destruct (IH ltac:(lia) H) as [used [-> [Hx Hcases]]].
    destruct (ask_answered_counts q _ _ _ Hask)
      as [read [line [-> [_ [_ [_ [Hc Hcount]]]]]]].
    rewrite Hh, Hr in Hc.
    exists (read ++ used)%list. split; [now rewrite app_assoc |].
    rewrite !count_kind_app, !Hcount, Hc by discriminate. cbn [kind_eqb].
    split; [lia |]. destruct Hcases as [[-> ->] | [-> [-> <-]]]; [left | right]; lia.
Qed.

End SessionFacts.

(** ** Single steps of the session *)

Module StepFacts.
Import Str StrFacts SessionFacts.

(** A hint keyword is neither empty nor an exit keyword. *)
Lemma hint_keyword (ans : string) :
  in_tuple ans ["help"; "clue"; "hint"] = true ->
  ans <> "" /\ in_tuple ans ["quit"; "exit"] = false.
Proof.
  intros H. apply in_tuple_iff in H.
  destruct H as [<- | [<- | [<- | []]]]; split; (discriminate || reflexivity).
Qed.

Lemma run_loop_blank (q : q_data) (q_num attempt : Z) (clue_used : bool)
    (line : string) (rest : list string) :
  attempt < ATTEMPTS -> all_space line = true ->
  run_loop q q_num attempt clue_used (line :: rest) =
  run_loop q q_num attempt clue_used rest.
Proof.
  intros Hlt Hb.
  rewrite (run_loop_body q q_num attempt clue_used (line :: rest)).
  rewrite (run_loop_body q q_num attempt clue_used rest).
  rewrite (ask_blank line rest Hb).
  destruct (Z.ltb_spec attempt ATTEMPTS); [reflexivity | lia].
Qed.

Lemma run_loop_quit (q : q_data) (q_num attempt : Z) (clue_used : bool)
    (line : string) (rest : list string) :
  attempt < ATTEMPTS -> in_tuple (normalized line) ["quit"; "exit"] = true ->
  run_loop q q_num attempt clue_used (line :: rest) = Raise SystemExit.
Proof.
  intros Hlt Hq. rewrite run_loop_body, (ask_quit line rest Hq).
  destruct (Z.ltb_spec attempt ATTEMPTS); [reflexivity | lia].
Qed.

Lemma run_loop_hint (q : q_data) (q_num attempt : Z) (clue_used : bool)
    (line : string) (rest : list string) :
  attempt < ATTEMPTS ->
  in_tuple (normalized line) ["help"; "clue"; "hint"] = true ->
  run_loop q q_num attempt clue_used (line :: rest) =
  run_loop q q_num (attempt + 1) true rest.
Proof.
  intros Hlt Hh. destruct (hint_keyword _ Hh) as [Hne Hq].
  rewrite run_loop_body, (ask_answer line rest Hne Hq), Hh.
  destruct (Z.ltb_spec attempt ATTEMPTS); [reflexivity | lia].
Qed.

Lemma run_loop_no_input (q : q_data) (q_num attempt : Z) (clue_used : bool) :
  run_loop q q_num attempt clue_used [] =
  if attempt <? ATTEMPTS then AwaitingInput attempt clue_used else Return 0 [].
Proof. now rewrite run_loop_body. Qed.

Lemma run_loop_right (q : q_data) (q_num attempt : Z) (clue_used : bool)
    (line : string) (rest : list string) :
  attempt < ATTEMPTS ->
  normalized line <> "" ->
  in_tuple (normalized line) ["quit"; "exit"] = false ->
  in_tuple (normalized line) ["help"; "clue"; "hint"] = false ->
  right_answer (normalized line) (answer q) = true ->
  run_loop q q_num attempt clue_used (line :: rest) = Return (attempt + 1) rest.
Proof.
  intros Hlt Hne Hq Hh Hr.
  rewrite run_loop_body, (ask_answer line rest Hne Hq), Hh, Hr.
  destruct (Z.ltb_spec attempt ATTEMPTS); [reflexivity | lia].
Qed.

(** An exit keyword typed while [main] is suspended at a prompt. *)
Lemma ask_questions_quit (questions_data : list q_data) (i : Z)
    (results : list Z) (pre : list string) (line : string)
    (post : list string) (attempt : Z) (clue_used : bool) :
  in_tuple (normalized line) ["quit"; "exit"] = true ->
  ask_questions questions_data i results pre = AwaitingInput attempt clue_used ->
  ask_questions questions_data i results (pre ++ line :: post) = Raise SystemExit.
Proof.
  intros Hq. revert i results pre.
  induction questions_data as [|q qs IH]; intros i results pre; simpl;
    [discriminate |].
  unfold run_single_question. rewrite run_loop_app.
  destruct (run_loop q (i + 1) 0 false pre) as [v rest | e | a c] eqn:E.
  - apply IH.
  - discriminate.
  - intros H. injection H as -> ->.
    apply run_loop_awaiting in E.
    rewrite run_loop_quit by (lia || assumption). reflexivity.
Qed.

End StepFacts.

(** ** The claims about the question session *)

Import Str StrFacts SessionFacts StepFacts.

(** C3. The check succeeds exactly when the case-folded form of some
    accepted answer occurs, as a run of characters, in the stripped and
    case-folded input; this holds whatever the case folding and the
    stripping do to a text, the check being written with the folding left
    open, and [right_answer] is that check with the folding of the model.
    Equality is not asked for: "paris" is accepted in "i think it's
    paris, yes", which differs from it; and the case does not matter, on
    either side: "Paris" is accepted in "  I THINK it's PARIS, yes ". *)
Theorem right_answer_is_containment_up_to_case :
  (forall (fold strip : string -> string) (input : string)
          (answers : list string),
     right_answer_by fold (fold (strip input)) answers = true <->
     exists a, In a answers /\
       substring_of (fold a) (fold (strip input))) /\
  (forall given_answer answers,
     right_answer given_answer answers =
     right_answer_by casefold given_answer answers) /\
  right_answer (normalized "i think it's paris, yes") ["paris"] = true /\
  normalized "i think it's paris, yes" <> casefold "paris" /\
  right_answer (normalized "  I THINK it's PARIS, yes ") ["Lutetia"; "Paris"]
    = true /\
  right_answer (normalized "I think it's London") ["Lutetia"; "Paris"] = false /\
  run_single_question capital 1 ["  I THINK it's PARIS, yes "] = Return 1 [].
Proof.
  split; [| split; [| repeat split; (reflexivity || discriminate)]].
  - intros fold strip input answers. apply right_answer_by_iff.
  - apply right_answer_by_casefold.
Qed.

(** The check sees the stripped line: white space at the ends of the line
    is gone before an accepted answer is looked for. *)
Remark check_sees_the_stripped_line :
  right_answer (normalized " paris") [" paris"] = false /\
  right_answer (normalized "in paris") [" paris"] = true.
Proof. split; reflexivity. Qed.



(** C8. An empty or white-space-only line typed at a prompt leaves the
    session at a prompt with the same attempt counter and the same
    clue-used flag, and whatever is typed next has the effect it would
    have had without that line. *)
Theorem blank_input_changes_nothing (q : q_data) (q_num : Z)
    (pre : list string) (line : string) (attempt : Z) (clue_used : bool) :
  run_single_question q q_num pre = AwaitingInput attempt clue_used ->
  all_space line = true ->
  run_single_question q q_num (pre ++ [line]) = AwaitingInput attempt clue_used /\
  forall post,
    run_single_question q q_num (pre ++ line :: post) =
    run_single_question q q_num (pre ++ post).
Proof.
  unfold run_single_question. intros H Hb.
  pose proof (run_loop_awaiting _ _ _ _ _ _ _ H) as Hlt.
  assert (Hpost : forall post,
    run_loop q q_num 0 false (pre ++ line :: post) =
    run_loop q q_num 0 false (pre ++ post)).
  { intros post. rewrite !run_loop_app, H.
    apply run_loop_blank; [lia | exact Hb]. }
  split; [| exact Hpost].
  rewrite Hpost, app_nil_r. exact H.
Qed.

Lemma blank_input_changes_nothing_witness :
  run_single_question capital 1 (["x"; "hint"] ++ ["   "]) = AwaitingInput 2 true /\
  forall post,
    run_single_question capital 1 (["x"; "hint"] ++ "   " :: post) =
    run_single_question capital 1 (["x"; "hint"] ++ post).
Proof.
  apply (blank_input_changes_nothing capital 1 ["x"; "hint"] "   " 2 true);
    reflexivity.
Defined.

(** C7. At any prompt a hint keyword adds exactly one to the attempt
    counter and sets the clue-used flag; the session is then at the next
    prompt, or has returned 0 when that was the last attempt.  The value
    the session would return for a right answer on that line, the counter
    plus one, is not returned, whatever the accepted answers are. *)
Theorem hint_costs_one_attempt_and_never_succeeds (q : q_data) (q_num : Z)
    (attempt : Z) (clue_used : bool) (line : string) :
  0 <= attempt < ATTEMPTS ->
  in_tuple (normalized line) ["help"; "clue"; "hint"] = true ->
  (forall rest,
     run_loop q q_num attempt clue_used (line :: rest) =
     run_loop q q_num (attempt + 1) true rest) /\
  run_loop q q_num attempt clue_used [line] =
    (if attempt + 1 <? ATTEMPTS
     then AwaitingInput (attempt + 1) true else Return 0 []) /\
  (forall rest v rest',
     run_loop q q_num attempt clue_used (line :: rest) = Return v rest' ->
     v <> attempt + 1).
Proof.
  intros Hlt Hh.
  assert (Hstep : forall rest,
    run_loop q q_num attempt clue_used (line :: rest) =
    run_loop q q_num (attempt + 1) true rest)
    by (intros rest; apply run_loop_hint; [lia | exact Hh]).
  split; [exact Hstep |]. split.
  - rewrite Hstep. apply run_loop_no_input.
  - intros rest v rest' H. rewrite Hstep in H.
    apply run_loop_return_range in H. lia.
Qed.

Lemma hint_costs_one_attempt_and_never_succeeds_witness :
  right_answer (normalized " Help ") (answer vowel) = true /\
  run_loop vowel 1 0 false [" Help "] = AwaitingInput 1 true /\
  run_loop vowel 1 4 true [" Help "] = Return 0 [].
Proof.
  split; [reflexivity |].
  split.
  - apply (hint_costs_one_attempt_and_never_succeeds vowel 1 0 false " Help ");
      [unfold ATTEMPTS; lia | reflexivity].
  - apply (hint_costs_one_attempt_and_never_succeeds vowel 1 4 true " Help ");
      [unfold ATTEMPTS; lia | reflexivity].
Defined.

(** C1, as the code has it.  A hint keyword typed at a prompt adds one to
    the attempt counter; the session goes on to the next prompt when
    attempts are left and returns 0 when the hint used up the last one.
    A returned value is either positive, and then the one right answer
    read came after that many attempts less one, hints and wrong answers
    together; or it is 0, and then no right answer was read and hints and
    wrong answers together number [ATTEMPTS]. *)
Theorem hints_count_towards_exhaustion (q : q_data) (q_num : Z) :
  (forall pre attempt clue_used line,
     run_single_question q q_num pre = AwaitingInput attempt clue_used ->
     in_tuple (normalized line) ["help"; "clue"; "hint"] = true ->
     run_single_question q q_num (pre ++ [line]) =
     if attempt + 1 <? ATTEMPTS
     then AwaitingInput (attempt + 1) true else Return 0 []) /\
  (forall inputs v rest,
     run_single_question q q_num inputs = Return v rest ->
     exists used,
       inputs = (used ++ rest)%list /\
       ((v = count_kind Hint q used + count_kind Wrong q used + 1 /\
         count_kind Right q used = 1) \/
        (v = 0 /\ count_kind Right q used = 0 /\
         count_kind Hint q used + count_kind Wrong q used = ATTEMPTS))).
Proof.
  unfold run_single_question. split.
  - intros pre attempt clue_used line H Hh.
    rewrite run_loop_app, H.
    apply run_loop_awaiting in H.
    rewrite run_loop_hint by (lia || assumption).
    apply run_loop_no_input.
  - intros inputs v rest H.
    apply run_loop_return_counts in H; [| unfold ATTEMPTS; lia].
    destruct H as [used [-> [_ H]]]. exists used. split; [reflexivity |].
    rewrite !Z.add_0_l in H. exact H.
Qed.

Lemma hints_count_towards_exhaustion_witness :
  run_single_question capital 1 (["x"; "x"; "x"; "x"] ++ ["hint"]) = Return 0 [] /\
  run_single_question capital 1 (["x"; "x"] ++ ["hint"]) = AwaitingInput 3 true /\
  exists used,
    ["clue"; "x"; "paris"; "more"] = (used ++ ["more"])%list /\
    ((3 = count_kind Hint capital used + count_kind Wrong capital used + 1 /\
      count_kind Right capital used = 1) \/
     (3 = 0 /\ count_kind Right capital used = 0 /\
      count_kind Hint capital used + count_kind Wrong capital used = ATTEMPTS)).
Proof.
  destruct (hints_count_towards_exhaustion capital 1) as [Hhint Hret].
  split; [| split].
  - apply (Hhint ["x"; "x"; "x"; "x"] 4 false "hint"); reflexivity.
  - apply (Hhint ["x"; "x"] 2 false "hint"); reflexivity.
  - apply (Hret ["clue"; "x"; "paris"; "more"] 3 ["more"]). reflexivity.
Defined.

(** C1, as the claim has it, fails: after four wrong answers a hint request
    uses up the fifth attempt and the session returns 0, with no right
    answer read and fewer than [ATTEMPTS] wrong answers. *)
Lemma hint_on_last_attempt_returns_zero :
  run_single_question capital 1 ["x"; "x"; "x"; "x"; "hint"] = Return 0 [] /\
  count_kind Wrong capital ["x"; "x"; "x"; "x"; "hint"] = 4 /\
  count_kind Right capital ["x"; "x"; "x"; "x"; "hint"] = 0 /\
  ~ (forall q q_num inputs v,
       run_single_question q q_num inputs = Return v [] ->
       0 < count_kind Right q inputs \/ ATTEMPTS <= count_kind Wrong q inputs).
Proof.
  repeat split; try reflexivity.
  intros H.
  specialize (H capital 1 ["x"; "x"; "x"; "x"; "hint"] 0 eq_refl).
  vm_compute in H. destruct H as [H | H]; [discriminate H | now apply H].
Qed.

(** C5. An exit keyword typed at any prompt makes the program raise
    [SystemExit]: the session it is typed in returns nothing, and [main]
    raises as well, whatever lines follow, so that no score is computed. *)
Theorem exit_keyword_aborts (line : string) :
  in_tuple (normalized line) ["quit"; "exit"] = true ->
  (forall q q_num pre post attempt clue_used,
     run_single_question q q_num pre = AwaitingInput attempt clue_used ->
     run_single_question q q_num (pre ++ line :: post) = Raise SystemExit) /\
  (forall questions_data pre post attempt clue_used,
     main questions_data pre = AwaitingInput attempt clue_used ->
     main questions_data (pre ++ line :: post) = Raise SystemExit).
Proof.
  intros Hq. split.
  - unfold run_single_question. intros q q_num pre post attempt clue_used H.
    rewrite run_loop_app, H. apply run_loop_awaiting in H.
    apply run_loop_quit; [lia | exact Hq].
  - unfold main. intros qs pre post attempt clue_used H.
    destruct (ask_questions qs 0 [] pre) as [results rest | e | a c] eqn:E.
    + destruct (end_game results); discriminate H.
    + discriminate H.
    + now rewrite (ask_questions_quit qs 0 [] pre line post a c Hq E).
Qed.

Lemma exit_keyword_aborts_witness :
  run_single_question capital 1 (["x"; ""] ++ "  EXIT " :: ["paris"])
    = Raise SystemExit /\
  main [capital; vowel] (["paris"; "x"] ++ "  EXIT " :: ["e"])
    = Raise SystemExit.
Proof.
  destruct (exit_keyword_aborts "  EXIT " eq_refl) as [Hsession Hmain].
  split.
  - apply (Hsession capital 1 ["x"; ""] ["paris"] 1 false). reflexivity.
  - apply (Hmain [capital; vowel] ["paris"; "x"] ["e"] 1 false). reflexivity.
Defined.

(** C10. When an accepted answer case-folds to the empty string,
    [right_answer] is true of every given answer, and any line that is
    neither blank nor an exit or hint keyword is accepted on the first
    attempt. *)
Theorem empty_accepted_answer_accepts_all (q : q_data) (a : string) :
  In a (answer q) -> casefold a = "" ->
  (forall given_answer, right_answer given_answer (answer q) = true) /\
  (forall q_num line rest,
     all_space line = false ->
     in_tuple (normalized line) ["quit"; "exit"] = false ->
     in_tuple (normalized line) ["help"; "clue"; "hint"] = false ->
     run_single_question q q_num (line :: rest) = Return 1 rest).
Proof.
  intros Ha Hfold.
  assert (Hall : forall given_answer, right_answer given_answer (answer q) = true).
  { intros g. apply right_answer_iff. exists a. split; [exact Ha |].
    rewrite Hfold. apply contains_iff, contains_empty. }
  split; [exact Hall |].
  intros q_num line rest Hb Hq Hh. unfold run_single_question.
  apply (run_loop_right q q_num 0 false line rest); auto.
  - unfold ATTEMPTS. lia.
  - intros H. apply normalized_empty_iff in H. congruence.
Qed.

Lemma empty_accepted_answer_accepts_all_witness :
  (forall given_answer, right_answer given_answer (answer lenient) = true) /\
  run_single_question lenient 1 ["no idea"; "more"] = Return 1 ["more"].
Proof.
  destruct (empty_accepted_answer_accepts_all lenient ""
              (or_introl eq_refl) eq_refl) as [Hall Hfirst].
  split; [exact Hall |].
  apply (Hfirst 1 "no idea" ["more"]); reflexivity.
Defined.

(** ** The score *)

Module ScoreFacts.

Lemma fold_left_add (results : list Z) (acc : Z) :
  fold_left Z.add results acc = acc + fold_right Z.add 0 results.
Proof.
  revert acc; induction results as [|v results IH]; intros acc; simpl.
  - lia.
  - rewrite IH. lia.
Qed.

Lemma sum_fold_right (results : list Z) :
  sum results = fold_right Z.add 0 results.
Proof. unfold sum. now rewrite fold_left_add. Qed.

Lemma count0_filter (results : list Z) :
  count0 results = Z.of_nat (List.length (filter (Z.eqb 0) results)).
Proof.
  unfold count0. f_equal.
  induction results as [|v results IH]; [reflexivity |].
  cbn [count_occ filter].
  destruct (Z.eq_dec v 0) as [Hv | Hv]; destruct (Z.eqb_spec 0 v) as [Hv' | Hv'];
    try congruence.
  cbn [List.length]. now rewrite IH.
Qed.

Lemma count0_zero_iff (results : list Z) :
  count0 results = 0 <-> ~ In 0 results.
Proof.
  unfold count0. rewrite (count_occ_not_In Z.eq_dec). lia.
Qed.

Lemma len_zero_iff (results : list Z) : len results = 0 <-> results = [].
Proof.
  unfold len. destruct results; simpl; split; (congruence || lia).
Qed.

(** The average as [end_game] computes it is the average of the outcomes
    with ten added for each zero. *)
Lemma average_as_computed (results : list Z) :
  (inject_Z (sum results + count0 results * 10) / inject_Z (len results))%Q
  = average_attempts results.
Proof.
  unfold average_attempts, len. rewrite sum_fold_right, count0_filter.
  now rewrite (Z.mul_comm _ 10).
Qed.

(** [end_game] on a list that is not empty. *)
Lemma end_game_nonempty (results : list Z) :
  results <> [] ->
  exists r,
    end_game results = Some r /\
    score r = (if negb (count0 results =? 0)
               then 10 - average_attempts results
               else 11 - average_attempts results)%Q /\
    score_color r = (if Qle_bool 9 (score r) then green
                     else if Qlt_bool (score r) 6 then red else white) /\
    answered r = len results - count0 results /\
    total r = len results.
Proof.
  intros Hne. unfold end_game.
  destruct (Z.eqb_spec (len results) 0) as [H0 | _];
    [now apply len_zero_iff in H0 |].
  rewrite average_as_computed.
  eexists. split; [reflexivity |]. cbn [score score_color answered total].
  repeat split; reflexivity.
Qed.

(** Each outcome weighs between 1 and 10 in the penalised sum, and at most
    [ATTEMPTS] when no outcome is zero. *)
Lemma penalised_sum_bounds (results : list Z) :
  Forall session_outcome results ->
  len results <= sum results + count0 results * 10 <= 10 * len results /\
  (~ In 0 results -> sum results + count0 results * 10 <= ATTEMPTS * len results).
Proof.
  rewrite sum_fold_right, count0_filter. unfold len, session_outcome, ATTEMPTS.
  induction 1 as [|v results Hv _ [IH1 IH2]].
  - simpl. split; [lia | intros _; lia].
  - cbn [fold_right filter List.length].
    destruct (Z.eqb_spec 0 v) as [<- | Hnz]; cbn [List.length].
    + split; [lia |]. intros H. exfalso. apply H. now left.
    + split; [lia |]. intros H.
      assert (~ In 0 results) by (intros Hin; apply H; now right).
      specialize (IH2 ltac:(assumption)). lia.
Qed.

(** A quotient of integers between integer bounds. *)
Lemma quotient_bounds (lo hi s n : Z) :
  0 < n -> lo * n <= s <= hi * n ->
  (inject_Z lo <= inject_Z s / inject_Z n <= inject_Z hi)%Q.
Proof.
  intros Hn [Hlo Hhi].
  assert (Hq : (0 < inject_Z n)%Q)
    by (change 0%Q with (inject_Z 0); rewrite <- Zlt_Qlt; exact Hn).
  split.
  - apply Qle_shift_div_l; [exact Hq |].
    rewrite <- inject_Z_mult, <- Zle_Qle. exact Hlo.
  - apply Qle_shift_div_r; [exact Hq |].
    rewrite <- inject_Z_mult, <- Zle_Qle. exact Hhi.
Qed.

End ScoreFacts.

(** ** The claims about the score *)

Import ScoreFacts.

(** C2. For a list of outcomes that is not empty, [end_game] computes as
    score 10 less the average when some outcome is 0, 11 less the average
    otherwise, where the average is the sum of the outcomes plus ten for
    each zero, over their number.  So [3] scores 8, [0; 2] scores 4 and
    [1; 1; 1] scores 10. *)
Theorem end_game_score :
  (forall results, results <> [] ->
     exists r,
       end_game results = Some r /\
       (In 0 results -> (score r == 10 - average_attempts results)%Q) /\
       (~ In 0 results -> (score r == 11 - average_attempts results)%Q)) /\
  (exists r, end_game [3] = Some r /\ (score r == 8)%Q) /\
  (exists r, end_game [0; 2] = Some r /\ (score r == 4)%Q) /\
  (exists r, end_game [1; 1; 1] = Some r /\ (score r == 10)%Q).
Proof.
  split; [| repeat split; eexists; (split; [reflexivity | reflexivity])].
  intros results Hne.
  destruct (end_game_nonempty results Hne) as [r [Hr [Hs _]]].
  exists r. split; [exact Hr |]. rewrite Hs.
  destruct (Z.eqb_spec (count0 results) 0) as [H0 | H0]; cbn [negb];
    rewrite count0_zero_iff in H0.
  - split; [intros Hin; contradiction | intros _; reflexivity].
  - split; [intros _; reflexivity | intros Hnin; contradiction].
Qed.

Lemma end_game_score_witness :
  exists r,
    end_game [0; 2; 5] = Some r /\
    (In 0 [0; 2; 5] -> (score r == 10 - average_attempts [0; 2; 5]%Z)%Q) /\
    (~ In 0 [0; 2; 5] -> (score r == 11 - average_attempts [0; 2; 5]%Z)%Q).
Proof.
  destruct end_game_score as [Hall _].
  apply (Hall [0; 2; 5]). discriminate.
Defined.

(** C6. The colour the score is displayed in is green exactly when the
    score is at least 9, red exactly when it is below 6, and white exactly
    when it is in between. *)
Theorem score_color_bands (results : list Z) :
  results <> [] ->
  exists r,
    end_game results = Some r /\
    (score_color r = green <-> (9 <= score r)%Q) /\
    (score_color r = red <-> (score r < 6)%Q) /\
    (score_color r = white <-> (6 <= score r /\ score r < 9)%Q).
Proof.
  intros Hne.
  destruct (end_game_nonempty results Hne) as [r [Hr [_ [Hc _]]]].
  exists r. split; [exact Hr |]. rewrite Hc. unfold Qlt_bool.
  destruct (Qle_bool 9 (score r)) eqn:H9;
    [apply Qle_bool_iff in H9 | apply not_true_iff_false in H9;
                                 rewrite Qle_bool_iff in H9];
    (destruct (Qle_bool 6 (score r)) eqn:H6;
      [apply Qle_bool_iff in H6 | apply not_true_iff_false in H6;
                                   rewrite Qle_bool_iff in H6]);
    cbn [negb]; repeat split; intros; try discriminate; try reflexivity;
    try tauto; try lra.
Qed.

Lemma score_color_bands_witness :
  exists r,
    end_game [0; 2] = Some r /\
    (score_color r = green <-> (9 <= score r)%Q) /\
    (score_color r = red <-> (score r < 6)%Q) /\
    (score_color r = white <-> (6 <= score r /\ score r < 9)%Q).
Proof. apply (score_color_bands [0; 2]). discriminate. Defined.

(** C9. When every outcome is one [run_single_question] can return, the
    score of a list that is not empty lies between 0 and 10, and between 6
    and 10 when no outcome is 0. *)
Theorem score_range (results : list Z) :
  results <> [] -> Forall session_outcome results ->
  exists r,
    end_game results = Some r /\
    (0 <= score r <= 10)%Q /\
    (~ In 0 results -> (6 <= score r <= 10)%Q).
Proof.
  intros Hne Hall.
  destruct (end_game_nonempty results Hne) as [r [Hr [Hs _]]].
  exists r. split; [exact Hr |].
  destruct (penalised_sum_bounds results Hall) as [[Hlo Hhi] Hfive].
  assert (Hn : (0 < len results)%Z).
  { assert (len results <> 0) by (rewrite len_zero_iff; exact Hne).
    unfold len in *. lia. }
  pose proof (quotient_bounds 1 10 (sum results + count0 results * 10)
                (len results) Hn ltac:(lia)) as Havg.
  rewrite average_as_computed in Havg.
  change (inject_Z 1) with 1%Q in Havg. change (inject_Z 10) with 10%Q in Havg.
  rewrite Hs.
  destruct (Z.eqb_spec (count0 results) 0) as [H0 | H0]; cbn [negb];
    rewrite count0_zero_iff in H0.
  - specialize (Hfive H0).
    pose proof (quotient_bounds 1 ATTEMPTS (sum results + count0 results * 10)
                  (len results) Hn ltac:(lia)) as H5.
    rewrite average_as_computed in H5.
    change (inject_Z 1) with 1%Q in H5. change (inject_Z ATTEMPTS) with 5%Q in H5.
    split; [| intros _]; lra.
  - split; [lra | intros Hnin; contradiction].
Qed.

Lemma score_range_witness :
  exists r,
    end_game [0; 2; 5] = Some r /\
    (0 <= score r <= 10)%Q /\
    (~ In 0 [0; 2; 5] -> (6 <= score r <= 10)%Q).
Proof.
  apply (score_range [0; 2; 5]); [discriminate |].
  unfold session_outcome, ATTEMPTS.
  repeat constructor; lia.
Defined.

(** * Further properties of the code *)

(** ** The session, from the lines read *)

Module HistoryFacts.
Import Str StrFacts SessionFacts StepFacts.

Lemma ask_noinput_inv (inputs : list string) :
  ask inputs = NoInput -> Forall (fun l => all_space l = true) inputs.
Proof.
  induction inputs as [|l inputs IH]; [constructor |].
  rewrite ask_cons.
  destruct (String.eqb (normalized l) "") eqn:E.
  - intros H. constructor; [| now apply IH].
    apply normalized_empty_iff. now apply String.eqb_eq.
  - destruct (in_tuple (normalized l) ["quit"; "exit"]); discriminate.
Qed.

Lemma ask_quit_inv (inputs : list string) :
  ask inputs = Quit -> exists line, In line inputs /\ exit_line line.
Proof.
  induction inputs as [|l inputs IH]; [discriminate |].
  rewrite ask_cons.
  destruct (String.eqb (normalized l) "").
  - intros H. destruct (IH H) as [line [Hin Hq]].
    exists line. split; [now right | exact Hq].
  - destruct (in_tuple (normalized l) ["quit"; "exit"]) eqn:Q; intros H;
      [| discriminate H].
    exists l. split; [now left | exact Q].
Qed.

(** The state a suspended loop is in, from the state it was entered in and
    the lines read since. *)
Lemma run_loop_awaiting_counts (q : q_data) (q_num attempt : Z)
    (clue_used : bool) (inputs : list string) (attempt' : Z)
    (clue_used' : bool) :
  run_loop q q_num attempt clue_used inputs = AwaitingInput attempt' clue_used' ->
  attempt' = attempt + count_kind Hint q inputs + count_kind Wrong q inputs /\
  count_kind Right q inputs = 0 /\
  count_kind Exit q inputs = 0 /\
  clue_used' = (clue_used || (0 <? count_kind Hint q inputs))%bool.
Proof.
  revert attempt clue_used inputs.
  apply (loop_induction q q_num
    (fun attempt clue_used inputs o =>
       o = AwaitingInput attempt' clue_used' ->
       attempt' = attempt + count_kind Hint q inputs + count_kind Wrong q inputs /\
       count_kind Right q inputs = 0 /\
       count_kind Exit q inputs = 0 /\
       clue_used' = (clue_used || (0 <? count_kind Hint q inputs))%bool)).
  - discriminate.
  - intros a c i _ Hask H. injection H as <- <-.
    apply ask_noinput_inv in Hask.
    rewrite !(count_kind_blanks _ q i Hask) by discriminate.
    rewrite orb_false_r. repeat split; lia.
  - discriminate.
  - intros a c i ans r o _ Hask Hh _ IH H.
    destruct (IH H) as [Ha [Hr [Hx Hc]]].
    destruct (ask_answered_counts q _ _ _ Hask)
      as [read [line [-> [_ [_ [_ [Hk Hcount]]]]]]].
    rewrite Hh in Hk.
    rewrite !count_kind_app, !Hcount, Hk by discriminate. cbn [kind_eqb].
    repeat split; try lia.
    rewrite Hc, orb_true_l, orb_comm.
    pose proof (Zle_0_nat (List.length
      (filter (fun l => kind_eqb (classify q l) Hint) r))) as Hpos.
    fold (count_kind Hint q r) in Hpos.
    destruct (Z.ltb_spec 0 (1 + count_kind Hint q r)); [reflexivity | lia].
  - discriminate.
  - intros a c i ans r o _ Hask Hh Hr' _ IH H.
    destruct (IH H) as [Ha [Hr [Hx Hc]]].
    destruct (ask_answered_counts q _ _ _ Hask)
      as [read [line [-> [_ [_ [_ [Hk Hcount]]]]]]].
    rewrite Hh, Hr' in Hk.
    rewrite !count_kind_app, !Hcount, Hk by discriminate. cbn [kind_eqb].
    repeat split; try lia. rewrite Hc. now rewrite Z.add_0_l.
Qed.

(** An exception leaving the loop is [SystemExit], and an exit keyword is
    among the lines. *)
Lemma run_loop_raise_inv (q : q_data) (q_num attempt : Z) (clue_used : bool)
    (inputs : list string) (e : exn) :
  run_loop q q_num attempt clue_used inputs = Raise e ->
  e = SystemExit /\ exists line, In line inputs /\ exit_line line.
Proof.
  revert attempt clue_used inputs.
  apply (loop_induction q q_num
    (fun attempt clue_used inputs o =>
       o = Raise e ->
       e = SystemExit /\ exists line, In line inputs /\ exit_line line)).
  - discriminate.
  - discriminate.
  - intros a c i _ Hask H. injection H as <-.
    split; [reflexivity | now apply ask_quit_inv].
  - intros a c i ans r o _ Hask _ _ IH H.
    destruct (IH H) as [He [line [Hin Hq]]]. split; [exact He |].
    destruct (ask_answered_inv _ _ _ Hask) as [blanks [l [-> _]]].
    exists line. split; [| exact Hq]. apply in_or_app. right. now right.
  - discriminate.
  - intros a c i ans r o _ Hask _ _ _ IH H.
    destruct (IH H) as [He [line [Hin Hq]]]. split; [exact He |].
    destruct (ask_answered_inv _ _ _ Hask) as [blanks [l [-> _]]].
    exists line. split; [| exact Hq]. apply in_or_app. right. now right.
Qed.

(** With no accepted answer the loop returns nothing but 0. *)
Lemma run_loop_no_answers (q : q_data) (q_num attempt : Z) (clue_used : bool)
    (inputs : list string) (v : Z) (rest : list string) :
  answer q = [] ->
  run_loop q q_num attempt clue_used inputs = Return v rest -> v = 0.
Proof.
  intros Hq. revert attempt clue_used inputs.
  apply (loop_induction q q_num
    (fun attempt clue_used inputs o => o = Return v rest -> v = 0)).
  - intros a c i _ H. now injection H as <- _.
  - discriminate.
  - discriminate.
  - intros a c i ans r o _ _ _ _ IH H. exact (IH H).
  - intros a c i ans r _ _ _ Hr _. rewrite Hq in Hr. discriminate Hr.
  - intros a c i ans r o _ _ _ _ _ IH H. exact (IH H).
Qed.

Lemma right_answer_app (given_answer : string) (l1 l2 : list string) :
  right_answer given_answer (l1 ++ l2) =
  (right_answer given_answer l1 || right_answer given_answer l2)%bool.
Proof.
  induction l1 as [|a l1 IH]; [reflexivity |].
  cbn [app right_answer].
  destruct (contains (casefold a) given_answer); [reflexivity | exact IH].
Qed.

(** Blank lines in front of the others are read and passed over. *)
Lemma ask_skip_blanks (blanks inputs : list string) :
  Forall (fun l => all_space l = true) blanks ->
  ask (blanks ++ inputs) = ask inputs.
Proof.
  induction 1 as [|l blanks Hl _ IH]; [reflexivity |].
  rewrite <- app_comm_cons, (ask_blank l _ Hl). exact IH.
Qed.

(** Where the inner loop met the exit keyword. *)
Lemma ask_quit_split (inputs : list string) :
  ask inputs = Quit ->
  exists blanks line after,
    inputs = (blanks ++ line :: after)%list /\
    Forall (fun l => all_space l = true) blanks /\ exit_line line.
Proof.
  induction inputs as [|l inputs IH]; [discriminate |].
  rewrite ask_cons.
  destruct (String.eqb (normalized l) "") eqn:E.
  - intros H. destruct (IH H) as [blanks [line [after [-> [Hb Hq]]]]].
    exists (l :: blanks), line, after. split; [reflexivity |].
    split; [| exact Hq]. constructor; [| exact Hb].
    apply normalized_empty_iff. now apply String.eqb_eq.
  - destruct (in_tuple (normalized l) ["quit"; "exit"]) eqn:Q; intros H;
      [| discriminate H].
    exists [], l, inputs. repeat split; [constructor | exact Q].
Qed.

(** A loop that raised [SystemExit] was waiting at a prompt when the exit
    keyword came. *)
Lemma run_loop_exit_split (q : q_data) (q_num attempt : Z) (clue_used : bool)
    (inputs : list string) :
  run_loop q q_num attempt clue_used inputs = Raise SystemExit ->
  exists before line after attempt' clue_used',
    inputs = (before ++ line :: after)%list /\
    run_loop q q_num attempt clue_used before
      = AwaitingInput attempt' clue_used' /\
    exit_line line.
Proof.
  revert attempt clue_used inputs.
  apply (loop_induction q q_num
    (fun attempt clue_used inputs o =>
       o = Raise SystemExit ->
       exists before line after attempt' clue_used',
         inputs = (before ++ line :: after)%list /\
         run_loop q q_num attempt clue_used before
           = AwaitingInput attempt' clue_used' /\
         exit_line line)).
  - discriminate.
  - discriminate.
  - intros a c i Hlt Hask _.
    destruct (ask_quit_split i Hask) as [blanks [line [after [-> [Hb Hq]]]]].
    exists blanks, line, after, a, c. split; [reflexivity |].
    split; [| exact Hq].
    rewrite run_loop_body.
    rewrite <- (app_nil_r blanks), (ask_skip_blanks blanks [] Hb).
    cbn [ask]. destruct (Z.ltb_spec a ATTEMPTS); [reflexivity | lia].
  - intros a c i ans rest o Hlt Hask Hh _ IH H.
    destruct (IH H) as [before [line [after [a' [c' [-> [Hrun Hq]]]]]]].
    destruct (ask_answered_inv _ _ _ Hask)
      as [blanks [l [Hi [Hb [Hl [Hne Hnq]]]]]].
    exists (blanks ++ l :: before)%list, line, after, a', c'.
    split; [now rewrite Hi, <- app_assoc |]. split; [| exact Hq].
    rewrite run_loop_body, (ask_skip_blanks blanks _ Hb).
    rewrite <- Hl in Hne, Hnq, Hh.
    rewrite (ask_answer l before Hne Hnq), Hh.
    destruct (Z.ltb_spec a ATTEMPTS); [exact Hrun | lia].
  - discriminate.
  - intros a c i ans rest o Hlt Hask Hh Hr _ IH H.
    destruct (IH H) as [before [line [after [a' [c' [-> [Hrun Hq]]]]]]].
    destruct (ask_answered_inv _ _ _ Hask)
      as [blanks [l [Hi [Hb [Hl [Hne Hnq]]]]]].
    exists (blanks ++ l :: before)%list, line, after, a', c'.
    split; [now rewrite Hi, <- app_assoc |]. split; [| exact Hq].
    rewrite run_loop_body, (ask_skip_blanks blanks _ Hb).
    rewrite <- Hl in Hne, Hnq, Hh, Hr.
    rewrite (ask_answer l before Hne Hnq), Hh, Hr.
    destruct (Z.ltb_spec a ATTEMPTS); [exact Hrun | lia].
Qed.

End HistoryFacts.

(** ** The loop over the questions *)

Module MainFacts.
Import Str StrFacts SessionFacts StepFacts HistoryFacts.

(** The lines left over by the loop are the end of the lines it was given. *)
Lemma run_loop_return_suffix (q : q_data) (q_num attempt : Z) (clue_used : bool)
    (inputs : list string) (v : Z) (rest : list string) :
  run_loop q q_num attempt clue_used inputs = Return v rest ->
  exists used, inputs = (used ++ rest)%list.
Proof.
  revert attempt clue_used inputs.
  apply (loop_induction q q_num
    (fun attempt clue_used inputs o =>
       o = Return v rest -> exists used, inputs = (used ++ rest)%list)).
  - intros a c i _ H. injection H as _ <-. now exists [].
  - discriminate.
  - discriminate.
  - intros a c i ans r o _ Hask _ _ IH H. destruct (IH H) as [used ->].
    destruct (ask_answered_inv _ _ _ Hask) as [blanks [l [-> _]]].
    exists (blanks ++ l :: used)%list. now rewrite <- app_assoc.
  - intros a c i ans r _ Hask _ _ H. injection H as _ <-.
    destruct (ask_answered_inv _ _ _ Hask) as [blanks [l [-> _]]].
    exists (blanks ++ [l])%list. now rewrite <- app_assoc.
  - intros a c i ans r o _ Hask _ _ _ IH H. destruct (IH H) as [used ->].
    destruct (ask_answered_inv _ _ _ Hask) as [blanks [l [-> _]]].
    exists (blanks ++ l :: used)%list. now rewrite <- app_assoc.
Qed.

(** The list [main] hands to [end_game]: one outcome for each question,
    after the outcomes it started from. *)
Lemma ask_questions_return (questions_data : list q_data) (i : Z)
    (results : list Z) (inputs : list string) (out : list Z)
    (rest : list string) :
  ask_questions questions_data i results inputs = Return out rest ->
  exists new used,
    out = (results ++ new)%list /\
    List.length new = List.length questions_data /\
    Forall session_outcome new /\
    inputs = (used ++ rest)%list.
Proof.
  revert i results inputs.
  induction questions_data as [|q qs IH]; intros i results inputs; simpl.
  - intros H. injection H as <- <-. exists [], [].
    rewrite app_nil_r. repeat split. constructor.
  - unfold run_single_question.
    destruct (run_loop q (i + 1) 0 false inputs) as [v r | e | a c] eqn:E;
      try discriminate.
    intros H. destruct (IH _ _ _ H) as [new [used [-> [Hlen [Hall ->]]]]].
    destruct (run_loop_return_suffix _ _ _ _ _ _ _ E) as [used0 ->].
    exists (v :: new), (used0 ++ used)%list.
    rewrite <- !app_assoc. simpl. repeat split.
    + now rewrite Hlen.
    + constructor; [| exact Hall].
      apply run_loop_return_range in E. unfold session_outcome. lia.
Qed.

Lemma ask_questions_raise (questions_data : list q_data) (i : Z)
    (results : list Z) (inputs : list string) (e : exn) :
  ask_questions questions_data i results inputs = Raise e ->
  e = SystemExit /\ exists line, In line inputs /\ exit_line line.
Proof.
  revert i results inputs.
  induction questions_data as [|q qs IH]; intros i results inputs; simpl;
    [discriminate |].
  unfold run_single_question.
  destruct (run_loop q (i + 1) 0 false inputs) as [v r | e' | a c] eqn:E;
    try discriminate.
  - intros H. destruct (IH _ _ _ H) as [He [line [Hin Hq]]].
    split; [exact He |].
    destruct (run_loop_return_suffix _ _ _ _ _ _ _ E) as [used ->].
    exists line. split; [| exact Hq]. apply in_or_app. now right.
  - intros H. injection H as <-. now apply run_loop_raise_inv in E.
Qed.

Lemma ask_questions_app (questions_data : list q_data) (i : Z)
    (results : list Z) (inputs post : list string) :
  ask_questions questions_data i results (inputs ++ post) =
  match ask_questions questions_data i results inputs with
  | Return out rest => Return out (rest ++ post)
  | Raise e => Raise e
  | AwaitingInput attempt clue_used =>
      ask_questions questions_data i results (inputs ++ post)
  end.
Proof.
  revert i results inputs.
  induction questions_data as [|q qs IH]; intros i results inputs; simpl;
    [reflexivity |].
  unfold run_single_question. rewrite run_loop_app.
  destruct (run_loop q (i + 1) 0 false inputs) as [v r | e | a c] eqn:E.
  - apply IH.
  - reflexivity.
  - reflexivity.
Qed.

End MainFacts.

(** ** The score, from the outcomes *)

Module OutcomeFacts.
Import ScoreFacts.

Lemma len_pos (results : list Z) : results <> [] -> 0 < len results.
Proof.
  intros Hne. assert (len results <> 0) by (rewrite len_zero_iff; exact Hne).
  unfold len in *. lia.
Qed.

Lemma inject_pos (n : Z) : 0 < n -> (0 < inject_Z n)%Q.
Proof. intros Hn. change 0%Q with (inject_Z 0). now rewrite <- Zlt_Qlt. Qed.

Lemma quotient_le (s s' n : Z) :
  0 < n -> s' <= s -> (inject_Z s' / inject_Z n <= inject_Z s / inject_Z n)%Q.
Proof.
  intros Hn Hs. unfold Qdiv. apply Qmult_le_compat_r.
  - now rewrite <- Zle_Qle.
  - apply Qlt_le_weak, Qinv_lt_0_compat, inject_pos, Hn.
Qed.

Lemma quotient_gt (lo s n : Z) :
  0 < n -> lo * n < s -> (inject_Z lo < inject_Z s / inject_Z n)%Q.
Proof.
  intros Hn Hs. apply Qlt_shift_div_l; [now apply inject_pos |].
  now rewrite <- inject_Z_mult, <- Zlt_Qlt.
Qed.

Lemma quotient_self (n : Z) : 0 < n -> (inject_Z n / inject_Z n == 1)%Q.
Proof.
  intros Hn. unfold Qdiv. apply Qmult_inv_r.
  pose proof (inject_pos n Hn). lra.
Qed.

(** The penalised sum is the sum of the weights. *)
Lemma penalised_sum_weights (results : list Z) :
  sum results + count0 results * 10 =
  fold_right (fun v acc => weight v + acc) 0 results.
Proof.
  rewrite sum_fold_right, count0_filter. unfold weight.
  induction results as [|v results IH]; [reflexivity |].
  cbn [fold_right filter]. rewrite <- IH.
  destruct (Z.eqb_spec 0 v) as [<- | Hv].
  - cbn [List.length Z.eqb]. lia.
  - destruct (Z.eqb_spec v 0); [congruence | lia].
Qed.

Lemma count0_nonneg (results : list Z) : 0 <= count0 results <= len results.
Proof.
  unfold count0, len. pose proof (count_occ_bound Z.eq_dec 0 results). lia.
Qed.

(** The outcomes that are not zero are at least 1 each. *)
Lemma sum_lower_bound (results : list Z) :
  Forall session_outcome results ->
  len results - count0 results <= sum results.
Proof.
  rewrite sum_fold_right, count0_filter. unfold len, session_outcome.
  induction 1 as [|v results Hv _ IH]; [simpl; lia |].
  cbn [fold_right filter List.length].
  destruct (Z.eqb_spec 0 v); cbn [List.length]; lia.
Qed.

Lemma count0_pos_iff (results : list Z) : 0 < count0 results <-> In 0 results.
Proof.
  unfold count0. rewrite (count_occ_In Z.eq_dec). lia.
Qed.

(** With a zero among the outcomes the average exceeds 1. *)
Lemma penalised_sum_with_zero (results : list Z) :
  Forall session_outcome results -> In 0 results ->
  len results < sum results + count0 results * 10.
Proof.
  intros Hall Hin. apply count0_pos_iff in Hin.
  pose proof (sum_lower_bound results Hall). lia.
Qed.

(** Outcomes of value at least 1 that sum up to their number are all 1. *)
Lemma sum_minimal (results : list Z) :
  Forall (fun v => 1 <= v) results ->
  len results <= fold_right Z.add 0 results /\
  (fold_right Z.add 0 results = len results -> Forall (fun v => v = 1) results).
Proof.
  unfold len. induction 1 as [|v results Hv _ [IH1 IH2]].
  - split; [simpl; lia | constructor].
  - cbn [fold_right List.length]. split; [lia |].
    intros H. constructor; [lia |]. apply IH2. lia.
Qed.

Lemma sum_ones (results : list Z) :
  Forall (fun v => v = 1) results ->
  fold_right Z.add 0 results = len results /\ ~ In 0 results.
Proof.
  unfold len. induction 1 as [|v results -> _ [IH1 IH2]].
  - split; [reflexivity | intros []].
  - cbn [fold_right List.length]. split; [lia |].
    intros [H | H]; [discriminate | contradiction].
Qed.

(** [end_game] after a permutation of the outcomes. *)
Lemma end_game_inputs_perm (results results' : list Z) :
  Permutation results results' ->
  count0 results = count0 results' /\
  sum results = sum results' /\
  len results = len results'.
Proof.
  intros H. repeat split.
  - unfold count0. f_equal.
    now apply (proj1 (Permutation_count_occ Z.eq_dec results results')).
  - rewrite !sum_fold_right.
    induction H as [| x l l' _ IH | x y l | l l' l'' _ IH1 _ IH2]; simpl; lia.
  - unfold len. f_equal. now apply Permutation_length.
Qed.

(** What [end_game] plays, from the colour. *)
Lemma end_game_sound (results : list Z) (r : score_result) :
  end_game results = Some r ->
  sound r = if color_eqb (score_color r) red
            then "notification.mp3" else "happy-end.mp3".
Proof.
  unfold end_game. destruct (len results =? 0); [discriminate |].
  intros H. injection H as <-. reflexivity.
Qed.

(** The score of a list of session outcomes, by whether a zero is there. *)
Lemma score_bounds (results : list Z) (r : score_result) :
  results <> [] -> Forall session_outcome results ->
  end_game results = Some r ->
  (0 <= score r <= 10)%Q /\
  (In 0 results -> (score r < 9)%Q) /\
  (~ In 0 results -> (6 <= score r)%Q).
Proof.
  intros Hne Hall Hr.
  destruct (end_game_nonempty results Hne) as [r' [Hr' [Hs _]]].
  rewrite Hr in Hr'. injection Hr' as <-.
  destruct (penalised_sum_bounds results Hall) as [[Hlo Hhi] Hfive].
  pose proof (len_pos results Hne) as Hn.
  pose proof (quotient_bounds 1 10 (sum results + count0 results * 10)
                (len results) Hn ltac:(lia)) as Havg.
  rewrite average_as_computed in Havg.
  change (inject_Z 1) with 1%Q in Havg. change (inject_Z 10) with 10%Q in Havg.
  rewrite Hs.
  destruct (Z.eqb_spec (count0 results) 0) as [H0 | H0]; cbn [negb];
    rewrite count0_zero_iff in H0.
  - specialize (Hfive H0).
    pose proof (quotient_bounds 1 ATTEMPTS (sum results + count0 results * 10)
                  (len results) Hn ltac:(lia)) as H5.
    rewrite average_as_computed in H5.
    change (inject_Z 1) with 1%Q in H5. change (inject_Z ATTEMPTS) with 5%Q in H5.
    split; [lra |]. split; [intros Hin; contradiction | intros _; lra].
  - assert (Hin : In 0 results).
    { destruct (in_dec Z.eq_dec 0 results); [assumption | contradiction]. }
    pose proof (quotient_gt 1 (sum results + count0 results * 10) (len results)
                  Hn ltac:(pose proof (penalised_sum_with_zero results Hall Hin); lia))
      as Hgt.
    rewrite average_as_computed in Hgt. change (inject_Z 1) with 1%Q in Hgt.
    split; [lra |]. split; [intros _; lra | intros Hnin; contradiction].
Qed.

(** The colour, by the thresholds of the score. *)
Lemma score_color_cases (results : list Z) (r : score_result) :
  end_game results = Some r ->
  (score_color r = red <-> (score r < 6)%Q) /\
  (score_color r = green <-> (9 <= score r)%Q).
Proof.
  intros Hr.
  assert (Hne : results <> []) by (intros ->; discriminate Hr).
  destruct (end_game_nonempty results Hne) as [r' [Hr' [_ [Hc _]]]].
  rewrite Hr in Hr'. injection Hr' as <-. rewrite Hc. unfold Qlt_bool.
  destruct (Qle_bool 9 (score r)) eqn:H9;
    [apply Qle_bool_iff in H9 | apply not_true_iff_false in H9;
                                 rewrite Qle_bool_iff in H9];
    (destruct (Qle_bool 6 (score r)) eqn:H6;
      [apply Qle_bool_iff in H6 | apply not_true_iff_false in H6;
                                   rewrite Qle_bool_iff in H6]);
    cbn [negb]; repeat split; intros; try discriminate; try reflexivity;
    try tauto; try lra.
Qed.

Lemma answered_as_filter (results : list Z) :
  len results - count0 results =
  Z.of_nat (List.length (filter (fun v => negb (v =? 0)) results)).
Proof.
  rewrite count0_filter. unfold len.
  induction results as [|v results IH]; [reflexivity |].
  cbn [filter List.length].
  destruct (Z.eqb_spec 0 v) as [<- | Hv].
  - cbn [Z.eqb negb List.length]. lia.
  - destruct (Z.eqb_spec v 0); [congruence |]. cbn [negb List.length]. lia.
Qed.

Lemma weights_le (results results' : list Z) :
  Forall2 (fun v v' => weight v' <= weight v /\ (v' = 0 -> v = 0))
          results results' ->
  fold_right (fun v acc => weight v + acc) 0 results'
  <= fold_right (fun v acc => weight v + acc) 0 results /\
  len results' = len results /\
  (In 0 results' -> In 0 results).
Proof.
  unfold len. induction 1 as [|v v' l l' [Hw Hz] _ [IH1 [IH2 IH3]]].
  - repeat split; auto; lia.
  - cbn [fold_right List.length]. repeat split; try lia.
    intros [Hv | Hin]; [left; now apply Hz | right; now apply IH3].
Qed.

End OutcomeFacts.

(** ** The session and the game, from the lines typed *)

Import HistoryFacts MainFacts OutcomeFacts.

(** X1. When the session is waiting at a prompt, the attempt counter is the
    number of hint requests and wrong answers typed so far, no right answer
    and no exit keyword is among the lines, and the clue-used flag is set
    exactly when a hint was requested. *)
Theorem suspended_state_from_history (q : q_data) (q_num : Z)
    (inputs : list string) (attempt : Z) (clue_used : bool) :
  run_single_question q q_num inputs = AwaitingInput attempt clue_used ->
  attempt = count_kind Hint q inputs + count_kind Wrong q inputs /\
  attempt < ATTEMPTS /\
  count_kind Right q inputs = 0 /\
  count_kind Exit q inputs = 0 /\
  (clue_used = true <-> 0 < count_kind Hint q inputs).
Proof.
  unfold run_single_question. intros H.
  pose proof (run_loop_awaiting _ _ _ _ _ _ _ H) as Hlt.
  apply run_loop_awaiting_counts in H as [Ha [Hr [Hx Hc]]].
  repeat split; try lia.
  - intros ->. simpl in Hc. symmetry in Hc. now apply Z.ltb_lt in Hc.
  - intros Hpos. rewrite Hc. simpl. now apply Z.ltb_lt.
Qed.

Lemma suspended_state_from_history_witness :
  2 = count_kind Hint capital ["x"; ""; "Clue"]
      + count_kind Wrong capital ["x"; ""; "Clue"] /\
  2 < ATTEMPTS /\
  count_kind Right capital ["x"; ""; "Clue"] = 0 /\
  count_kind Exit capital ["x"; ""; "Clue"] = 0 /\
  (true = true <-> 0 < count_kind Hint capital ["x"; ""; "Clue"]).
Proof.
  apply (suspended_state_from_history capital 1 ["x"; ""; "Clue"] 2 true).
  reflexivity.
Defined.

(** X2. Once [ATTEMPTS] lines that are not blank have been typed, the
    session is over: it has returned a value or raised [SystemExit]. *)
Theorem session_over_within_attempts (q : q_data) (q_num : Z)
    (inputs : list string) :
  ATTEMPTS <= count_kind Hint q inputs + count_kind Wrong q inputs
              + count_kind Right q inputs + count_kind Exit q inputs ->
  (exists v rest, run_single_question q q_num inputs = Return v rest) \/
  run_single_question q q_num inputs = Raise SystemExit.
Proof.
  unfold run_single_question. intros Hmany.
  destruct (run_loop q q_num 0 false inputs) as [v rest | e | a c] eqn:E.
  - left. now exists v, rest.
  - right. apply run_loop_raise_inv in E as [-> _]. reflexivity.
  - exfalso.
    pose proof (run_loop_awaiting _ _ _ _ _ _ _ E) as Hlt.
    apply run_loop_awaiting_counts in E as [Ha [Hr [Hx _]]]. lia.
Qed.

Lemma session_over_within_attempts_witness :
  (exists v rest,
     run_single_question capital 1 ["a"; "hint"; "b"; ""; "clue"; "c"]
     = Return v rest) \/
  run_single_question capital 1 ["a"; "hint"; "b"; ""; "clue"; "c"]
  = Raise SystemExit.
Proof.
  apply (session_over_within_attempts capital 1
           ["a"; "hint"; "b"; ""; "clue"; "c"]).
  vm_compute. discriminate.
Defined.

(** X3. Lines typed after the session, or the game, has come to its value
    are left unread: they are handed on after the lines left over, and the
    value is the same. *)
Theorem later_lines_are_left_unread (post : list string) :
  (forall q q_num inputs v rest,
     run_single_question q q_num inputs = Return v rest ->
     run_single_question q q_num (inputs ++ post) = Return v (rest ++ post)) /\
  (forall questions_data inputs r rest,
     main questions_data inputs = Return r rest ->
     main questions_data (inputs ++ post) = Return r (rest ++ post)).
Proof.
  split.
  - unfold run_single_question. intros q q_num inputs v rest H.
    now rewrite run_loop_app, H.
  - unfold main. intros qs inputs r rest H. rewrite ask_questions_app.
    destruct (ask_questions qs 0 [] inputs) as [out rest' | e | a c];
      try discriminate.
    destruct (end_game out); [| discriminate].
    injection H as <- <-. reflexivity.
Qed.

Lemma later_lines_are_left_unread_witness :
  run_single_question capital 1 (["x"; "paris"] ++ ["quit"])
  = Return 2 ([] ++ ["quit"]).
Proof.
  destruct (later_lines_are_left_unread ["quit"]) as [Hsession _].
  apply (Hsession capital 1 ["x"; "paris"] 2 []). reflexivity.
Defined.

(** X4. The session raises [SystemExit] exactly when an exit keyword is
    typed at one of its prompts: the lines typed divide into lines after
    which the session is waiting at a prompt, a line that is an exit
    keyword, and lines that are never read. *)
Theorem system_exit_iff_exit_keyword_at_a_prompt (q : q_data) (q_num : Z)
    (inputs : list string) :
  run_single_question q q_num inputs = Raise SystemExit <->
  exists before line after attempt clue_used,
    inputs = (before ++ line :: after)%list /\
    run_single_question q q_num before = AwaitingInput attempt clue_used /\
    exit_line line.
Proof.
  unfold run_single_question. split.
  - apply run_loop_exit_split.
  - intros [before [line [after [a [c [-> [Hrun Hq]]]]]]].
    rewrite SessionFacts.run_loop_app, Hrun.
    apply SessionFacts.run_loop_awaiting in Hrun.
    apply StepFacts.run_loop_quit; [lia | exact Hq].
Qed.

(** X5. A question whose list of accepted answers is empty cannot be
    answered: whatever is typed, the session returns nothing but 0. *)
Theorem no_accepted_answer_no_success (q : q_data) (q_num : Z)
    (inputs : list string) (v : Z) (rest : list string) :
  answer q = [] ->
  run_single_question q q_num inputs = Return v rest -> v = 0.
Proof. unfold run_single_question. apply run_loop_no_answers. Qed.

Lemma no_accepted_answer_no_success_witness : 0 = 0.
Proof.
  apply (no_accepted_answer_no_success (mk_q_data "?" [] "none") 1
           ["a"; "b"; "hint"; "c"; "d"; "e"] 0 ["e"]); reflexivity.
Defined.

(** X6. The accepted answers are alternatives: a given answer is right for
    two lists put together exactly when it is right for one of them, so
    their order does not matter. *)
Theorem accepted_answers_are_alternatives (given_answer : string)
    (l1 l2 : list string) :
  right_answer given_answer (l1 ++ l2) =
    (right_answer given_answer l1 || right_answer given_answer l2)%bool /\
  right_answer given_answer (l1 ++ l2) = right_answer given_answer (l2 ++ l1).
Proof.
  split; [apply right_answer_app |].
  rewrite !right_answer_app. apply orb_comm.
Qed.

(** X7. [main] raises [ZeroDivisionError] exactly when there is no question,
    and then whatever is typed. *)
Theorem main_divides_by_zero_iff_no_question (questions_data : list q_data)
    (inputs : list string) :
  main questions_data inputs = Raise ZeroDivisionError <-> questions_data = [].
Proof.
  unfold main. split.
  - intros H.
    destruct (ask_questions questions_data 0 [] inputs)
      as [out rest | e | a c] eqn:E; try discriminate.
    + destruct (ask_questions_return _ _ _ _ _ _ E)
        as [new [used [-> [Hlen _]]]].
      destruct questions_data as [|q qs]; [reflexivity |].
      destruct new as [|v new]; [discriminate Hlen |].
      unfold end_game in H. cbn [app] in H. unfold len in H.
      cbn [List.length] in H.
      destruct (Z.eqb_spec (Z.of_nat (S (List.length new))) 0); [lia |].
      discriminate H.
    + injection H as ->. apply ask_questions_raise in E as [E _]. discriminate E.
  - intros ->. reflexivity.
Qed.

(** X8. When [main] comes to a score, the total displayed is the number of
    questions, the number of answered questions lies between 0 and the
    total, the score lies between 0 and 10, and the lines left over are the
    end of the lines typed. *)
Theorem main_score_is_sound (questions_data : list q_data)
    (inputs : list string) (r : score_result) (rest : list string) :
  main questions_data inputs = Return r rest ->
  total r = Z.of_nat (List.length questions_data) /\
  0 <= answered r <= total r /\
  (0 <= score r <= 10)%Q /\
  exists used, inputs = (used ++ rest)%list.
Proof.
  unfold main. intros H.
  destruct (ask_questions questions_data 0 [] inputs)
    as [out rest' | e | a c] eqn:E; try discriminate.
  destruct (end_game out) as [r' |] eqn:Hr; [| discriminate].
  injection H as <- <-.
  destruct (ask_questions_return _ _ _ _ _ _ E)
    as [new [used [-> [Hlen [Hall ->]]]]].
  cbn [app] in Hr.
  assert (Hne : new <> []).
  { intros ->. discriminate Hr. }
  destruct (ScoreFacts.end_game_nonempty new Hne)
    as [r'' [Hr'' [_ [_ [Hans Htot]]]]].
  rewrite Hr in Hr''. injection Hr'' as <-.
  pose proof (count0_nonneg new) as Hc.
  destruct (score_bounds new r' Hne Hall Hr) as [Hs _].
  repeat split; try lra; try lia.
  - rewrite Htot. unfold len. now rewrite Hlen.
  - now exists used.
Qed.

Lemma main_score_is_sound_witness :
  exists r,
    main [capital; vowel] ["x"; "Paris"; "e"; "more"] = Return r ["more"] /\
    total r = Z.of_nat (List.length [capital; vowel]) /\
    0 <= answered r <= total r /\
    (0 <= score r <= 10)%Q.
Proof.
  eexists. split; [reflexivity |].
  destruct (main_score_is_sound [capital; vowel] ["x"; "Paris"; "e"; "more"]
              _ ["more"] eq_refl) as [Ht [Ha [Hs _]]].
  repeat split; (apply Ht || apply Ha || apply Hs).
Defined.

(** ** The score, from the outcomes of the sessions *)

(** X9. The order of the outcomes does not matter to [end_game]: on a
    permutation of the list it displays and plays the same. *)
Theorem end_game_ignores_order (results results' : list Z) :
  Permutation results results' -> end_game results = end_game results'.
Proof.
  intros H. destruct (end_game_inputs_perm _ _ H) as [Hc [Hs Hl]].
  unfold end_game. now rewrite Hc, Hs, Hl.
Qed.

Lemma end_game_ignores_order_witness :
  end_game [0; 2; 5] = end_game [5; 0; 2].
Proof.
  apply end_game_ignores_order.
  apply Permutation_sym, (Permutation_cons_app [0; 2] [] 5), Permutation_refl.
Defined.

(** X10. On a list that is not empty, the count [end_game] displays as
    answered is the number of outcomes that are not 0, out of the length of
    the list; the two are equal exactly when no outcome is 0. *)
Theorem answered_counts_nonzero_outcomes (results : list Z) :
  results <> [] ->
  exists r,
    end_game results = Some r /\
    answered r = Z.of_nat (List.length (filter (fun v => negb (v =? 0)) results)) /\
    total r = Z.of_nat (List.length results) /\
    0 <= answered r <= total r /\
    (answered r = total r <-> ~ In 0 results).
Proof.
  intros Hne.
  destruct (ScoreFacts.end_game_nonempty results Hne)
    as [r [Hr [_ [_ [Hans Htot]]]]].
  exists r. split; [exact Hr |].
  pose proof (count0_nonneg results) as Hc.
  rewrite Hans, Htot. split; [apply answered_as_filter |].
  split; [reflexivity |]. split; [lia |].
  rewrite <- ScoreFacts.count0_zero_iff. lia.
Qed.

Lemma answered_counts_nonzero_outcomes_witness :
  exists r,
    end_game [0; 2; 0; 1] = Some r /\
    answered r = Z.of_nat (List.length (filter (fun v => negb (v =? 0)) [0; 2; 0; 1])) /\
    total r = Z.of_nat (List.length [0; 2; 0; 1]) /\
    0 <= answered r <= total r /\
    (answered r = total r <-> ~ In 0 [0; 2; 0; 1]).
Proof. apply (answered_counts_nonzero_outcomes [0; 2; 0; 1]). discriminate. Defined.

(** X11. [end_game] plays [notification.mp3] exactly when the score is
    below 6, and [happy-end.mp3] exactly when it is 6 or more. *)
Theorem closing_sound_follows_score (results : list Z) (r : score_result) :
  end_game results = Some r ->
  (sound r = "notification.mp3" <-> (score r < 6)%Q) /\
  (sound r = "happy-end.mp3" <-> (6 <= score r)%Q).
Proof.
  intros Hr. rewrite (end_game_sound results r Hr).
  destruct (score_color_cases results r Hr) as [Hred _].
  destruct (score_color r); cbn [color_eqb].
  - assert (score r < 6)%Q by now apply Hred.
    repeat split; intros; try reflexivity; try discriminate; try assumption; lra.
  - assert (~ (score r < 6)%Q) by (intros H; apply Hred in H; discriminate H).
    repeat split; intros; try reflexivity; try discriminate; try contradiction; lra.
  - assert (~ (score r < 6)%Q) by (intros H; apply Hred in H; discriminate H).
    repeat split; intros; try reflexivity; try discriminate; try contradiction; lra.
Qed.

Lemma closing_sound_follows_score_witness :
  exists r,
    end_game [0; 2] = Some r /\
    (sound r = "notification.mp3" <-> (score r < 6)%Q) /\
    (sound r = "happy-end.mp3" <-> (6 <= score r)%Q).
Proof.
  eexists. split; [reflexivity |].
  apply (closing_sound_follows_score [0; 2]). reflexivity.
Defined.

(** X12. For outcomes the sessions can return: when every question was
    answered the score is not shown in red and the happy ending is played;
    when some question was left unanswered the score is below 9 and is not
    shown in green. *)
Theorem colour_fits_the_answers (results : list Z) (r : score_result) :
  Forall session_outcome results ->
  end_game results = Some r ->
  (~ In 0 results ->
     score_color r <> red /\ sound r = "happy-end.mp3") /\
  (In 0 results -> (score r < 9)%Q /\ score_color r <> green).
Proof.
  intros Hall Hr.
  assert (Hne : results <> []) by (intros ->; discriminate Hr).
  destruct (score_bounds results r Hne Hall Hr) as [_ [Hzero Hnozero]].
  destruct (score_color_cases results r Hr) as [Hred Hgreen].
  split.
  - intros Hnin. specialize (Hnozero Hnin).
    assert (Hnr : score_color r <> red) by (intros H; apply Hred in H; lra).
    split; [exact Hnr |]. rewrite (end_game_sound results r Hr).
    destruct (score_color r); [contradiction | reflexivity | reflexivity].
  - intros Hin. specialize (Hzero Hin). split; [exact Hzero |].
    intros H. apply Hgreen in H. lra.
Qed.

Lemma colour_fits_the_answers_witness :
  exists r,
    end_game [5; 5; 5] = Some r /\
    (~ In 0 [5; 5; 5] ->
       score_color r <> red /\ sound r = "happy-end.mp3") /\
    (In 0 [5; 5; 5] -> (score r < 9)%Q /\ score_color r <> green).
Proof.
  eexists. split; [reflexivity |].
  apply (colour_fits_the_answers [5; 5; 5]); [| reflexivity].
  unfold session_outcome, ATTEMPTS. repeat constructor; lia.
Defined.

(** X13. For outcomes the sessions can return, the score reaches 10, the
    maximum displayed, exactly when every question was answered on the
    first attempt. *)
Theorem full_score_iff_all_first_attempt (results : list Z) (r : score_result) :
  Forall session_outcome results ->
  end_game results = Some r ->
  ((score r == 10)%Q <-> Forall (fun v => v = 1) results).
Proof.
  intros Hall Hr.
  assert (Hne : results <> []) by (intros ->; discriminate Hr).
  pose proof (len_pos results Hne) as Hn.
  destruct (ScoreFacts.end_game_nonempty results Hne) as [r' [Hr' [Hs _]]].
  rewrite Hr in Hr'. injection Hr' as <-.
  destruct (score_bounds results r Hne Hall Hr) as [_ [Hzero _]].
  split.
  - intros H10.
    assert (Hnin : ~ In 0 results) by (intros Hin; specialize (Hzero Hin); lra).
    assert (Hones : Forall (fun v => 1 <= v) results).
    { rewrite Forall_forall in *. intros v Hv.
      destruct (Hall v Hv) as [-> | Hv1]; [contradiction | lia]. }
    apply sum_minimal; [exact Hones |].
    destruct (sum_minimal results Hones) as [Hge _].
    destruct (Z.eq_dec (fold_right Z.add 0 results) (len results)) as [E | E];
      [exact E | exfalso].
    pose proof (proj2 (ScoreFacts.count0_zero_iff results) Hnin) as Hc0.
    rewrite Hs, Hc0 in H10. cbn [Z.eqb negb] in H10.
    pose proof (quotient_gt 1 (sum results + count0 results * 10) (len results)
                  Hn ltac:(rewrite ScoreFacts.sum_fold_right, Hc0; lia)) as Hgt.
    rewrite ScoreFacts.average_as_computed in Hgt.
    change (inject_Z 1) with 1%Q in Hgt. lra.
  - intros Hones. destruct (sum_ones results Hones) as [Hsum Hnin].
    pose proof (proj2 (ScoreFacts.count0_zero_iff results) Hnin) as Hc0.
    rewrite Hs, Hc0. cbn [Z.eqb negb].
    rewrite <- ScoreFacts.average_as_computed, ScoreFacts.sum_fold_right, Hsum, Hc0.
    rewrite Z.add_0_r, (quotient_self (len results) Hn). reflexivity.
Qed.

Lemma full_score_iff_all_first_attempt_witness :
  exists r,
    end_game [1; 1; 2] = Some r /\
    ((score r == 10)%Q <-> Forall (fun v => v = 1) [1; 1; 2]).
Proof.
  eexists. split; [reflexivity |].
  apply (full_score_iff_all_first_attempt [1; 1; 2]); [| reflexivity].
  unfold session_outcome, ATTEMPTS. repeat constructor; lia.
Defined.

(** X14. Doing better never lowers the score: when each outcome of a second
    game weighs no more than the outcome in its place in the first (ten
    for an unanswered question, the attempts otherwise) and is 0 only where
    the first is, the second score is at least the first. *)
Theorem better_outcomes_never_score_less (results results' : list Z)
    (r r' : score_result) :
  Forall2 (fun v v' => weight v' <= weight v /\ (v' = 0 -> v = 0))
          results results' ->
  end_game results = Some r -> end_game results' = Some r' ->
  (score r <= score r')%Q.
Proof.
  intros Hbetter Hr Hr'.
  assert (Hne : results <> []) by (intros ->; discriminate Hr).
  assert (Hne' : results' <> []) by (intros ->; discriminate Hr').
  destruct (ScoreFacts.end_game_nonempty results Hne) as [x [Hx [Hs _]]].
  rewrite Hr in Hx. injection Hx as <-.
  destruct (ScoreFacts.end_game_nonempty results' Hne') as [x [Hx [Hs' _]]].
  rewrite Hr' in Hx. injection Hx as <-.
  destruct (weights_le _ _ Hbetter) as [Hw [Hl Hz]].
  rewrite <- !penalised_sum_weights in Hw.
  pose proof (quotient_le _ _ (len results) (len_pos results Hne) Hw) as Hq.
  rewrite <- Hl in Hq at 1. rewrite !ScoreFacts.average_as_computed in Hq.
  rewrite Hs, Hs'.
  destruct (Z.eqb_spec (count0 results') 0) as [H0' | H0'];
    destruct (Z.eqb_spec (count0 results) 0) as [H0 | H0]; cbn [negb];
    try lra.
  exfalso. rewrite ScoreFacts.count0_zero_iff in H0.
  apply H0, Hz. apply count0_pos_iff. pose proof (count0_nonneg results'). lia.
Qed.

Lemma better_outcomes_never_score_less_witness :
  exists r r',
    end_game [0; 3] = Some r /\ end_game [4; 2] = Some r' /\
    (score r <= score r')%Q.
Proof.
  eexists. eexists. split; [reflexivity |]. split; [reflexivity |].
  apply (better_outcomes_never_score_less [0; 3] [4; 2]);
    [| reflexivity | reflexivity].
  repeat constructor; (vm_compute; congruence) || (intros H; discriminate H).
Defined.

(** ** Styled text *)

Module StyleFacts.

Lemma string_app_assoc (a b c : string) : (a ++ b) ++ c = a ++ b ++ c.
Proof. induction a as [|x a IH]; simpl; [reflexivity | now rewrite IH]. Qed.

Lemma getitem_none_iff (d : list (string * string)) (key : string) :
  getitem d key = None <-> ~ In key (map fst d).
Proof.
  induction d as [|[k v] d IH]; simpl.
  - tauto.
  - destruct (String.eqb_spec key k) as [-> | Hne].
    + split; [discriminate | intros H; exfalso; apply H; now left].
    + rewrite IH. split.
      * intros H [E | Hin]; [congruence | contradiction].
      * intros H Hin. apply H. now right.
Qed.

Lemma STYLE_keys (c : colorama) :
  map fst (STYLE c) = ["yellow"; "cyan"; "green"; "red"; "white"; "clear"; "bold"].
Proof. reflexivity. Qed.

Lemma STYLE_bold (c : colorama) : getitem (STYLE c) "bold" = Some (String ESC "[1m").
Proof. reflexivity. Qed.

Lemma STYLE_clear (c : colorama) : getitem (STYLE c) "clear" = Some (Style_RESET_ALL c).
Proof. reflexivity. Qed.

End StyleFacts.

(** X15. [style_text] raises [KeyError] exactly when the colour is none of
    the seven keys of [STYLE].  Otherwise the text stands, unchanged,
    between the code of the colour and the reset code, and asking for bold
    puts the bold code in front of what is returned without it.  The three
    colours [end_game] chooses from are keys. *)
Theorem style_text_fails_on_unknown_colour_only (c : colorama)
    (text color : string) (bold : bool) :
  (style_text c text color bold = None <->
   ~ In color ["yellow"; "cyan"; "green"; "red"; "white"; "clear"; "bold"]) /\
  (forall code, getitem (STYLE c) color = Some code ->
     style_text c text color false = Some (code ++ text ++ Style_RESET_ALL c) /\
     style_text c text color true =
       Some (String ESC "[1m" ++ code ++ text ++ Style_RESET_ALL c)) /\
  (forall col, style_text c text (color_name col) bold <> None).
Proof.
  assert (Hnone : style_text c text color bold = None <->
                  getitem (STYLE c) color = None).
  { unfold style_text. rewrite StyleFacts.STYLE_bold, StyleFacts.STYLE_clear.
    destruct bold; destruct (getitem (STYLE c) color);
      split; (discriminate || reflexivity). }
  split; [| split].
  - rewrite Hnone, StyleFacts.getitem_none_iff, StyleFacts.STYLE_keys. tauto.
  - intros code Hcode. unfold style_text.
    rewrite StyleFacts.STYLE_bold, StyleFacts.STYLE_clear, Hcode. split.
    + cbn [append]. now rewrite StyleFacts.string_app_assoc.
    + now rewrite !StyleFacts.string_app_assoc.
  - intros col. unfold style_text.
    rewrite StyleFacts.STYLE_bold, StyleFacts.STYLE_clear.
    destruct bold; destruct col; discriminate.
Qed.

Lemma style_text_fails_on_unknown_colour_only_witness :
  style_text (mk_colorama "Y" "C" "G" "R" "W" "0") "Wrong answer" "red" false
  = Some ("R" ++ "Wrong answer" ++ "0") /\
  style_text (mk_colorama "Y" "C" "G" "R" "W" "0") "Wrong answer" "red" true
  = Some (String ESC "[1m" ++ "R" ++ "Wrong answer" ++ "0").
Proof.
  apply (style_text_fails_on_unknown_colour_only
           (mk_colorama "Y" "C" "G" "R" "W" "0") "Wrong answer" "red" false).
  reflexivity.
Defined.

(** ** What the session displays and plays *)

Module TraceFacts.
Import Str StrFacts SessionFacts.

Lemma ask_io_cons (attempt : Z) (line : string) (rest : list string) :
  ask_io attempt (line :: rest) =
  if String.eqb (normalized line) "" then
    (Ask (attempt + 1) :: Display NothingTyped :: fst (ask_io attempt rest),
     snd (ask_io attempt rest))
  else if in_tuple (normalized line) ["quit"; "exit"] then
    ([Ask (attempt + 1); Display Quitting], Quit)
  else ([Ask (attempt + 1)], Answered (normalized line) rest).
Proof.
  unfold normalized. cbn [ask_io].
  destruct (String.eqb _ ""); [| reflexivity].
  now destruct (ask_io attempt rest).
Qed.

(** The inner loop reads the same with and without its events. *)
Lemma ask_io_ask (attempt : Z) (inputs : list string) :
  snd (ask_io attempt inputs) = ask inputs.
Proof.
  induction inputs as [|l inputs IH]; [reflexivity |].
  rewrite ask_io_cons, ask_cons.
  destruct (String.eqb _ ""); [exact IH |].
  destruct (in_tuple _ ["quit"; "exit"]); reflexivity.
Qed.

(** The events of the inner loop: prompts showing the attempt about to be
    made and notices; the last one tells how the loop ended. *)
Lemma ask_io_events (attempt : Z) (inputs : list string) :
  Forall (fun e => e = Ask (attempt + 1) \/ e = Display NothingTyped
                   \/ e = Display Quitting)
         (fst (ask_io attempt inputs)) /\
  exists before,
    fst (ask_io attempt inputs) =
    (before ++ [match snd (ask_io attempt inputs) with
                | Quit => Display Quitting
                | _ => Ask (attempt + 1)
                end])%list.
Proof.
  induction inputs as [|l inputs [IH1 [before IH2]]].
  - split; [repeat constructor; now left | now exists []].
  - rewrite ask_io_cons.
    destruct (String.eqb _ "").
    + cbn [fst snd]. split; [repeat constructor; tauto || exact IH1 |].
      exists (Ask (attempt + 1) :: Display NothingTyped :: before).
      now rewrite IH2 at 1.
    + destruct (in_tuple _ ["quit"; "exit"]); cbn [fst snd].
      * split; [repeat constructor; tauto | now exists [Ask (attempt + 1)]].
      * split; [repeat constructor; tauto | now exists []].
Qed.

(** The body of the outer loop with its events, as one equation. *)
Lemma run_loop_io_body (q : q_data) (q_num attempt : Z) (clue_used : bool)
    (inputs : list string) :
  run_loop_io q q_num attempt clue_used inputs =
  if attempt <? ATTEMPTS then
    match snd (ask_io attempt inputs) with
    | NoInput =>
        ((heading q q_num clue_used ++ fst (ask_io attempt inputs))%list,
         AwaitingInput attempt clue_used)
    | Quit =>
        ((heading q q_num clue_used ++ fst (ask_io attempt inputs))%list,
         Raise SystemExit)
    | Answered ans rest =>
        if in_tuple ans ["help"; "clue"; "hint"]
        then emit (heading q q_num clue_used ++ fst (ask_io attempt inputs)
                   ++ (if clue_used then [Display AlreadyAsked] else [])
                   ++ [Display (HintLine (hint q)); Play "beep.mp3" false])%list
                  (run_loop_io q q_num (attempt + 1) true rest)
        else if right_answer ans (answer q)
        then ((heading q q_num clue_used ++ fst (ask_io attempt inputs)
               ++ [Display (YouAreRight (attempt + 1));
                   Play "short-success.mp3" true])%list,
              Return (attempt + 1) rest)
        else emit (heading q q_num clue_used ++ fst (ask_io attempt inputs)
                   ++ Display WrongAnswer
                   :: (if attempt + 1 <? ATTEMPTS
                       then [Display (AttemptOutOf (attempt + 1));
                             Play "fail.mp3" false]
                       else [Display BareNewline]))%list
                  (run_loop_io q q_num (attempt + 1) clue_used rest)
    end
  else ([Display FailedAll; Play "power-down.mp3" true], Return 0 inputs).
Proof.
  simp run_loop_io.
  destruct (Z_lt_dec attempt ATTEMPTS) as [H | H];
    destruct (Z.ltb_spec attempt ATTEMPTS); try lia.
  - cbn. destruct (ask_io attempt inputs) as [events [ans rest | |]]; reflexivity.
  - reflexivity.
Qed.

(** Induction along the iterations of the outer loop with its events. *)
Section LoopIoInduction.

Variables (q : q_data) (q_num : Z).
Variable P : Z -> bool -> list string -> list event * outcome Z -> Prop.

Hypothesis exhausted : forall attempt clue_used inputs,
  ATTEMPTS <= attempt ->
  P attempt clue_used inputs
    ([Display FailedAll; Play "power-down.mp3" true], Return 0 inputs).
Hypothesis suspended : forall attempt clue_used inputs,
  attempt < ATTEMPTS -> snd (ask_io attempt inputs) = NoInput ->
  P attempt clue_used inputs
    ((heading q q_num clue_used ++ fst (ask_io attempt inputs))%list,
     AwaitingInput attempt clue_used).
Hypothesis quitting : forall attempt clue_used inputs,
  attempt < ATTEMPTS -> snd (ask_io attempt inputs) = Quit ->
  P attempt clue_used inputs
    ((heading q q_num clue_used ++ fst (ask_io attempt inputs))%list,
     Raise SystemExit).
Hypothesis hinted : forall attempt clue_used inputs ans rest,
  attempt < ATTEMPTS -> snd (ask_io attempt inputs) = Answered ans rest ->
  in_tuple ans ["help"; "clue"; "hint"] = true ->
  P (attempt + 1) true rest (run_loop_io q q_num (attempt + 1) true rest) ->
  P attempt clue_used inputs
    (emit (heading q q_num clue_used ++ fst (ask_io attempt inputs)
           ++ (if clue_used then [Display AlreadyAsked] else [])
           ++ [Display (HintLine (hint q)); Play "beep.mp3" false])%list
          (run_loop_io q q_num (attempt + 1) true rest)).
Hypothesis succeeded : forall attempt clue_used inputs ans rest,
  attempt < ATTEMPTS -> snd (ask_io attempt inputs) = Answered ans rest ->
  in_tuple ans ["help"; "clue"; "hint"] = false ->
  right_answer ans (answer q) = true ->
  P attempt clue_used inputs
    ((heading q q_num clue_used ++ fst (ask_io attempt inputs)
      ++ [Display (YouAreRight (attempt + 1));
          Play "short-success.mp3" true])%list,
     Return (attempt + 1) rest).
Hypothesis failed : forall attempt clue_used inputs ans rest,
  attempt < ATTEMPTS -> snd (ask_io attempt inputs) = Answered ans rest ->
  in_tuple ans ["help"; "clue"; "hint"] = false ->
  right_answer ans (answer q) = false ->
  P (attempt + 1) clue_used rest
    (run_loop_io q q_num (attempt + 1) clue_used rest) ->
  P attempt clue_used inputs
    (emit (heading q q_num clue_used ++ fst (ask_io attempt inputs)
           ++ Display WrongAnswer
           :: (if attempt + 1 <? ATTEMPTS
               then [Display (AttemptOutOf (attempt + 1));
                     Play "fail.mp3" false]
               else [Display BareNewline]))%list
          (run_loop_io q q_num (attempt + 1) clue_used rest)).

Lemma loop_io_induction (attempt : Z) (clue_used : bool) (inputs : list string) :
  P attempt clue_used inputs (run_loop_io q q_num attempt clue_used inputs).
Proof.
  remember (Z.to_nat (ATTEMPTS - attempt)) as k eqn:Hk.
  revert attempt clue_used inputs Hk.
  induction k as [k IH] using lt_wf_ind. intros attempt clue_used inputs Hk.
  rewrite run_loop_io_body.
  destruct (Z.ltb_spec attempt ATTEMPTS) as [Hlt | Hge];
    [| now apply exhausted].
  destruct (snd (ask_io attempt inputs)) as [ans rest | |] eqn:Hask;
    [| now apply quitting | now apply suspended].
  destruct (in_tuple ans ["help"; "clue"; "hint"]) eqn:Hhint.
  - eapply hinted; eauto.
    apply (IH (Z.to_nat (ATTEMPTS - (attempt + 1)))); [lia | reflexivity].
  - destruct (right_answer ans (answer q)) eqn:Hright.
    + eapply succeeded; eauto.
    + eapply failed; eauto.
      apply (IH (Z.to_nat (ATTEMPTS - (attempt + 1)))); [lia | reflexivity].
Qed.

End LoopIoInduction.

(** The loop comes to the same outcome with and without its events. *)
Lemma run_loop_io_outcome (q : q_data) (q_num attempt : Z) (clue_used : bool)
    (inputs : list string) :
  snd (run_loop_io q q_num attempt clue_used inputs) =
  run_loop q q_num attempt clue_used inputs.
Proof.
  revert attempt clue_used inputs.
  apply (loop_io_induction q q_num
    (fun attempt clue_used inputs r =>
       snd r = run_loop q q_num attempt clue_used inputs));
    intros a c i; intros; rewrite run_loop_body;
    destruct (Z.ltb_spec a ATTEMPTS); try lia; try reflexivity;
    rewrite <- (ask_io_ask a i);
    repeat match goal with H : snd (ask_io _ _) = _ |- _ => rewrite H end;
    repeat match goal with H : in_tuple _ _ = _ |- _ => rewrite H end;
    repeat match goal with H : right_answer _ _ = _ |- _ => rewrite H end;
    cbn [snd emit]; auto.
Qed.

End TraceFacts.

Module ClosingFacts.
Import Str StrFacts SessionFacts TraceFacts.

(** The events of the loop end with the closing events of its outcome. *)
Lemma run_loop_io_closing (q : q_data) (q_num attempt : Z) (clue_used : bool)
    (inputs : list string) :
  0 <= attempt ->
  exists before,
    fst (run_loop_io q q_num attempt clue_used inputs) =
    (before ++ closing (snd (run_loop_io q q_num attempt clue_used inputs)))%list.
Proof.
  revert attempt clue_used inputs.
  apply (loop_io_induction q q_num
    (fun attempt clue_used inputs r =>
       0 <= attempt -> exists before, fst r = (before ++ closing (snd r))%list)).
  - intros a c i _ _. now exists [].
  - intros a c i _ Hask _. cbn [fst snd closing].
    destruct (ask_io_events a i) as [_ [before Hev]]. rewrite Hask in Hev.
    exists (heading q q_num c ++ before)%list.
    now rewrite Hev at 1; rewrite app_assoc.
  - intros a c i _ Hask _. cbn [fst snd closing].
    destruct (ask_io_events a i) as [_ [before Hev]]. rewrite Hask in Hev.
    exists (heading q q_num c ++ before)%list.
    now rewrite Hev at 1; rewrite app_assoc.
  - intros a c i ans rest _ _ _ IH Ha.
    destruct (IH ltac:(lia)) as [before Hb]. cbn [emit fst snd].
    eexists. rewrite Hb at 1. rewrite !app_assoc. reflexivity.
  - intros a c i ans rest _ _ _ _ Ha. cbn [fst snd closing].
    destruct (Z.eqb_spec (a + 1) 0); [lia |].
    exists (heading q q_num c ++ fst (ask_io a i))%list.
    now rewrite <- app_assoc.
  - intros a c i ans rest _ _ _ _ IH Ha.
    destruct (IH ltac:(lia)) as [before Hb]. cbn [emit fst snd].
    eexists. rewrite Hb at 1. rewrite !app_assoc. reflexivity.
Qed.

End ClosingFacts.

(** X17. The session and its events come to the outcome of the session
    without them, and the events end as the outcome tells: with the line
    and the sound of success for a positive value, with those of failure
    for 0, with the quitting line for [SystemExit], and with a prompt
    showing the next attempt while the session waits. *)
Theorem session_events_end_as_the_outcome_tells (q : q_data) (q_num : Z)
    (inputs : list string) :
  snd (run_single_question_io q q_num inputs)
  = run_single_question q q_num inputs /\
  exists before,
    fst (run_single_question_io q q_num inputs) =
    (before ++ closing (run_single_question q q_num inputs))%list.
Proof.
  unfold run_single_question_io, run_single_question.
  split; [apply TraceFacts.run_loop_io_outcome |].
  rewrite <- TraceFacts.run_loop_io_outcome.
  apply ClosingFacts.run_loop_io_closing. lia.
Qed.

Module TipFacts.
Import Str StrFacts SessionFacts TraceFacts.

Lemma heading_members (q : q_data) (q_num : Z) (clue_used : bool) (e : event) :
  In e (heading q q_num clue_used) ->
  e = Display (QuestionLine q_num (question q)) \/
  (clue_used = false /\ e = Display HelpTip).
Proof.
  unfold heading. destruct clue_used; simpl; intuition.
Qed.

Lemma ask_io_members (attempt : Z) (inputs : list string) (e : event) :
  In e (fst (ask_io attempt inputs)) ->
  e = Ask (attempt + 1) \/ e = Display NothingTyped \/ e = Display Quitting.
Proof.
  destruct (ask_io_events attempt inputs) as [Hall _].
  rewrite Forall_forall in Hall. apply Hall.
Qed.

Lemma count_events_app (p : event -> bool) (l1 l2 : list event) :
  count_events p (l1 ++ l2) = (count_events p l1 + count_events p l2)%nat.
Proof. unfold count_events. now rewrite filter_app, length_app. Qed.

Lemma count_events_none (p : event -> bool) (events : list event) :
  (forall e, In e events -> p e = false) -> count_events p events = 0%nat.
Proof.
  unfold count_events. induction events as [|e events IH]; intros H;
    [reflexivity |].
  cbn [filter]. rewrite (H e (or_introl eq_refl)).
  apply IH. intros e' He'. apply H. now right.
Qed.

(** Before the answer is judged nothing about hints is displayed or
    played, the tip at the head of the iteration apart. *)
Lemma count_events_heading (p : event -> bool) (q : q_data) (q_num : Z)
    (clue_used : bool) :
  p (Display (QuestionLine q_num (question q))) = false ->
  p (Display HelpTip) = false ->
  count_events p (heading q q_num clue_used) = 0%nat.
Proof.
  intros H1 H2. apply count_events_none. intros e He.
  apply heading_members in He as [-> | [_ ->]]; assumption.
Qed.

Lemma count_events_ask_io (p : event -> bool) (attempt : Z)
    (inputs : list string) :
  p (Ask (attempt + 1)) = false ->
  p (Display NothingTyped) = false ->
  p (Display Quitting) = false ->
  count_events p (fst (ask_io attempt inputs)) = 0%nat.
Proof.
  intros H1 H2 H3. apply count_events_none. intros e He.
  apply ask_io_members in He as [-> | [-> | ->]]; assumption.
Qed.

(** The hint line, the beep and the notice of a repeated request, counted
    over the events of the loop. *)
Lemma run_loop_io_hint_counts (q : q_data) (q_num attempt : Z)
    (clue_used : bool) (inputs : list string) :
  let events := fst (run_loop_io q q_num attempt clue_used inputs) in
  count_events is_beep events = count_events is_hint_line events /\
  count_events is_already_asked events =
    if clue_used then count_events is_hint_line events
    else Nat.pred (count_events is_hint_line events).
Proof.
  revert attempt clue_used inputs.
  apply (loop_io_induction q q_num
    (fun attempt clue_used inputs r =>
       count_events is_beep (fst r) = count_events is_hint_line (fst r) /\
       count_events is_already_asked (fst r) =
         if clue_used then count_events is_hint_line (fst r)
         else Nat.pred (count_events is_hint_line (fst r)))).
  - intros a c i _. destruct c; split; reflexivity.
  - intros a c i _ _. cbn [fst].
    rewrite !count_events_app, !count_events_heading, !count_events_ask_io
      by reflexivity.
    destruct c; split; reflexivity.
  - intros a c i _ _. cbn [fst].
    rewrite !count_events_app, !count_events_heading, !count_events_ask_io
      by reflexivity.
    destruct c; split; reflexivity.
  - intros a c i ans rest _ _ _ [IH1 IH2]. cbn [emit fst].
    rewrite !count_events_app, !count_events_heading, !count_events_ask_io
      by reflexivity.
    rewrite IH1, IH2.
    generalize (count_events is_hint_line
                  (fst (run_loop_io q q_num (a + 1) true rest))) as later.
    intros later. destruct c; cbn; split; lia.
  - intros a c i ans rest _ _ _ _. cbn [fst].
    rewrite !count_events_app, !count_events_heading, !count_events_ask_io
      by reflexivity.
    destruct c; split; reflexivity.
  - intros a c i ans rest _ _ _ _ [IH1 IH2]. cbn [emit fst].
    rewrite !count_events_app, !count_events_heading, !count_events_ask_io
      by reflexivity.
    rewrite IH1, IH2.
    generalize (count_events is_hint_line
                  (fst (run_loop_io q q_num (a + 1) c rest))) as later.
    intros later. destruct c; destruct (a + 1 <? ATTEMPTS); cbn; split; lia.
Qed.

End TipFacts.

(** X18. Among the events of a session the hint line is followed by the
    beep as often as it is printed, and the notice of a repeated request is
    printed for every hint line but the first. *)
Theorem repeated_hint_is_noticed (q : q_data) (q_num : Z) (inputs : list string) :
  let events := fst (run_single_question_io q q_num inputs) in
  count_events is_beep events = count_events is_hint_line events /\
  count_events is_already_asked events
  = Nat.pred (count_events is_hint_line events).
Proof.
  unfold run_single_question_io.
  apply (TipFacts.run_loop_io_hint_counts q q_num 0 false inputs).
Qed.

Module HelpTipFacts.
Import Str StrFacts SessionFacts TraceFacts TipFacts.

(** An event that is none of the listed ones. *)
Ltac not_listed H :=
  simpl in H;
  repeat (destruct H as [H | H]; [discriminate H |]);
  solve [contradiction | discriminate H].

(** Splitting membership in the events of one iteration. *)
Ltac split_members H :=
  cbn [emit fst] in H;
  repeat (apply in_app_or in H; destruct H as [H | H]);
  try (apply heading_members in H; destruct H as [H | [? H]]);
  try (apply ask_io_members in H; destruct H as [H | [H | H]]);
  try discriminate H; try congruence.

(** Once the clue is used the tip about it is no longer printed. *)
Lemma no_help_tip_once_used (q : q_data) (q_num attempt : Z)
    (inputs : list string) :
  ~ In (Display HelpTip) (fst (run_loop_io q q_num attempt true inputs)).
Proof.
  assert (H : forall clue_used, clue_used = true ->
    ~ In (Display HelpTip) (fst (run_loop_io q q_num attempt clue_used inputs)));
    [| now apply H].
  intros clue_used. revert attempt clue_used inputs.
  apply (loop_io_induction q q_num
    (fun attempt clue_used inputs r =>
       clue_used = true -> ~ In (Display HelpTip) (fst r))).
  - intros a c i _ _ H. not_listed H.
  - intros a c i _ _ Hc H. split_members H.
  - intros a c i _ _ Hc H. split_members H.
  - intros a c i ans rest _ _ _ IH Hc H. split_members H.
    + subst c. not_listed H.
    + not_listed H.
    + now apply IH.
  - intros a c i ans rest _ _ _ _ Hc H. split_members H. not_listed H.
  - intros a c i ans rest _ _ _ _ IH Hc H. split_members H.
    + destruct (a + 1 <? ATTEMPTS); not_listed H.
    + now apply IH.
Qed.

(** The events of the loop entered with the clue unused: a first part
    without hint line and notice, then a part without the tip. *)
Lemma help_tip_until_hint (q : q_data) (q_num attempt : Z)
    (inputs : list string) :
  exists before after,
    fst (run_loop_io q q_num attempt false inputs) = (before ++ after)%list /\
    (forall h, ~ In (Display (HintLine h)) before) /\
    ~ In (Display AlreadyAsked) before /\
    ~ In (Display HelpTip) after.
Proof.
  assert (H : forall clue_used, clue_used = false ->
    exists before after,
      fst (run_loop_io q q_num attempt clue_used inputs) = (before ++ after)%list /\
      (forall h, ~ In (Display (HintLine h)) before) /\
      ~ In (Display AlreadyAsked) before /\
      ~ In (Display HelpTip) after);
    [| now apply H].
  intros clue_used. revert attempt clue_used inputs.
  apply (loop_io_induction q q_num
    (fun attempt clue_used inputs r =>
       clue_used = false ->
       exists before after,
         fst r = (before ++ after)%list /\
         (forall h, ~ In (Display (HintLine h)) before) /\
         ~ In (Display AlreadyAsked) before /\
         ~ In (Display HelpTip) after)).
  - intros a c i _ _. eexists. exists []. rewrite app_nil_r.
    split; [reflexivity |]. split; [intros h H; not_listed H |].
    split; intros H; not_listed H.
  - intros a c i _ _ _. eexists. exists []. rewrite app_nil_r.
    split; [reflexivity |]. split; [intros h H; split_members H |].
    split; intros H; [split_members H | exact H].
  - intros a c i _ _ _. eexists. exists []. rewrite app_nil_r.
    split; [reflexivity |]. split; [intros h H; split_members H |].
    split; intros H; [split_members H | exact H].
  - intros a c i ans rest _ _ _ _ ->. cbn [emit fst].
    exists (heading q q_num false ++ fst (ask_io a i))%list.
    eexists. split; [rewrite <- !app_assoc; reflexivity |].
    split; [intros h H; split_members H |].
    split; intros H; split_members H;
      try (now apply no_help_tip_once_used in H); not_listed H.
  - intros a c i ans rest _ _ _ _ _. eexists. exists []. rewrite app_nil_r.
    split; [reflexivity |]. split; [intros h H; split_members H; not_listed H |].
    split; intros H; [split_members H; not_listed H | exact H].
  - intros a c i ans rest _ _ _ _ IH Hc.
    destruct (IH Hc) as [before [after [Heq [Hh [Hn Ht]]]]]. cbn [emit fst].
    eexists. exists after. rewrite Heq, !app_assoc. split; [reflexivity |].
    split; [intros h H | split; [intros H | exact Ht]]; split_members H;
      try (now apply Hh in H); try (now apply Hn in H);
      destruct (a + 1 <? ATTEMPTS); not_listed H.
Qed.

(** The prompts of the loop show an attempt that is still allowed. *)
Lemma run_loop_io_prompts (q : q_data) (q_num attempt : Z) (clue_used : bool)
    (inputs : list string) (shown : Z) :
  In (Ask shown) (fst (run_loop_io q q_num attempt clue_used inputs)) ->
  attempt + 1 <= shown <= ATTEMPTS.
Proof.
  revert attempt clue_used inputs.
  apply (loop_io_induction q q_num
    (fun attempt clue_used inputs r =>
       In (Ask shown) (fst r) -> attempt + 1 <= shown <= ATTEMPTS)).
  - intros a c i _ H. not_listed H.
  - intros a c i Hlt _ H. split_members H. injection H as ->. lia.
  - intros a c i Hlt _ H. split_members H. injection H as ->. lia.
  - intros a c i ans rest Hlt _ _ IH H. split_members H.
    + injection H as ->. lia.
    + destruct c; not_listed H.
    + not_listed H.
    + specialize (IH H). lia.
  - intros a c i ans rest Hlt _ _ _ H. split_members H.
    + injection H as ->. lia.
    + not_listed H.
  - intros a c i ans rest Hlt _ _ _ IH H. split_members H.
    + injection H as ->. lia.
    + destruct (a + 1 <? ATTEMPTS); not_listed H.
    + specialize (IH H). lia.
Qed.

End HelpTipFacts.

(** X19. The events of a session divide in two: in the first part no hint
    line and no notice of a repeated request is printed, in the second the
    tip about asking for a clue is not printed any more.  So the tip is
    shown only until the clue has been given, and the notice only after. *)
Theorem help_tip_stops_with_the_clue (q : q_data) (q_num : Z)
    (inputs : list string) :
  exists before after,
    fst (run_single_question_io q q_num inputs) = (before ++ after)%list /\
    (forall h, ~ In (Display (HintLine h)) before) /\
    ~ In (Display AlreadyAsked) before /\
    ~ In (Display HelpTip) after.
Proof. apply HelpTipFacts.help_tip_until_hint. Qed.

(** X16. The number shown in a prompt of the session is never below 1 nor
    above [ATTEMPTS]. *)
Theorem prompts_stay_within_attempts (q : q_data) (q_num : Z)
    (inputs : list string) (shown : Z) :
  In (Ask shown) (fst (run_single_question_io q q_num inputs)) ->
  1 <= shown <= ATTEMPTS.
Proof.
  unfold run_single_question_io. intros H.
  apply HelpTipFacts.run_loop_io_prompts in H. lia.
Qed.

Lemma prompts_stay_within_attempts_witness : 1 <= 3 <= ATTEMPTS.
Proof.
  apply (prompts_stay_within_attempts capital 1 ["x"; "hint"; "paris"] 3).
  vm_compute. tauto.
Defined.

(** ** What of a typed line matters *)

Module NormalFacts.
Import Str StrFacts SessionFacts.

Lemma fold_char_idem (c : ascii) : fold_char (fold_char c) = fold_char c.
Proof. destruct c as [[] [] [] [] [] [] [] []]; reflexivity. Qed.

Lemma is_space_fold_char (c : ascii) : is_space (fold_char c) = is_space c.
Proof. destruct c as [[] [] [] [] [] [] [] []]; reflexivity. Qed.

Lemma casefold_idem (s : string) : casefold (casefold s) = casefold s.
Proof.
  induction s as [|c s IH]; [reflexivity |].
  simpl. now rewrite fold_char_idem, IH.
Qed.

Lemma lstrip_casefold (s : string) : lstrip (casefold s) = casefold (lstrip s).
Proof.
  induction s as [|c s IH]; [reflexivity |].
  cbn [casefold lstrip]. rewrite is_space_fold_char.
  destruct (is_space c); [exact IH | reflexivity].
Qed.

Lemma rstrip_casefold (s : string) : rstrip (casefold s) = casefold (rstrip s).
Proof.
  induction s as [|c s IH]; [reflexivity |].
  cbn [casefold rstrip]. rewrite IH, is_space_fold_char.
  destruct (rstrip s); cbn [casefold]; [destruct (is_space c) |]; reflexivity.
Qed.

Lemma rstrip_cons (c : ascii) (s : string) :
  rstrip (String c s) =
  match rstrip s with
  | EmptyString => if is_space c then EmptyString else String c EmptyString
  | r => String c r
  end.
Proof. reflexivity. Qed.

Lemma rstrip_idem (s : string) : rstrip (rstrip s) = rstrip s.
Proof.
  induction s as [|c s IH]; [reflexivity |].
  rewrite (rstrip_cons c s). destruct (rstrip s) as [|d r] eqn:E.
  - destruct (is_space c) eqn:Hc; [reflexivity |].
    rewrite rstrip_cons. cbn [rstrip]. now rewrite Hc.
  - rewrite rstrip_cons, IH. reflexivity.
Qed.

(** Stripping on the right keeps a first character that is no space. *)
Lemma rstrip_head (c : ascii) (s : string) :
  is_space c = false -> exists r, rstrip (String c s) = String c r.
Proof.
  intros Hc. cbn [rstrip]. destruct (rstrip s) as [|d r].
  - rewrite Hc. now exists "".
  - now exists (String d r).
Qed.

Lemma strip_idem (s : string) : strip (strip s) = strip s.
Proof.
  unfold strip.
  destruct (strip_lstrip_shape s) as [-> | [c [t [-> Hc]]]]; [reflexivity |].
  destruct (rstrip_head c t Hc) as [r Hr].
  rewrite Hr at 1. cbn [lstrip]. rewrite Hc, <- Hr. apply rstrip_idem.
Qed.

Lemma normalized_idem (line : string) :
  normalized (normalized line) = normalized line.
Proof.
  unfold normalized, strip.
  now rewrite lstrip_casefold, rstrip_casefold, casefold_idem,
    (strip_idem line : rstrip (lstrip (rstrip (lstrip line))) = _).
Qed.

End NormalFacts.

(** X20. Of a typed line only the stripped and case-folded form matters to
    the session: two lines with the same form have the same effect in
    every state in which it is read.  That form is left as it is by stripping and case folding
    it again, so typing the form itself has the effect of the line. *)
Theorem only_the_normalized_line_matters (line : string) :
  (forall line' q q_num attempt clue_used rest,
     attempt < ATTEMPTS ->
     normalized line' = normalized line ->
     run_loop q q_num attempt clue_used (line' :: rest) =
     run_loop q q_num attempt clue_used (line :: rest)) /\
  normalized (normalized line) = normalized line.
Proof.
  split; [| apply NormalFacts.normalized_idem].
  intros line' q q_num attempt clue_used rest Hlt H.
  rewrite !(SessionFacts.run_loop_body q q_num attempt clue_used (_ :: rest)).
  rewrite !SessionFacts.ask_cons, H.
  destruct (Z.ltb_spec attempt ATTEMPTS); [reflexivity | lia].
Qed.

Lemma only_the_normalized_line_matters_witness :
  run_loop capital 1 0 false ["paris"; "x"]
  = run_loop capital 1 0 false ["  PaRiS "; "x"].
Proof.
  destruct (only_the_normalized_line_matters "  PaRiS ") as [Hsame _].
  apply (Hsame "paris" capital 1 0 false ["x"]);
    [unfold ATTEMPTS; lia | reflexivity].
Defined.
